(** * ffmpeg-ts: the FFMPEG process wrapper and its progress extractor

    A shallow embedding of [src/ffmpeg.ts] (class [FFMPEG]) together with
    the pieces of the JavaScript runtime the class relies on: strings as
    sequences of UTF-16 code units, IEEE-754 binary64 numbers,
    [parseInt]/[parseFloat], and [String.prototype.match] for the eight
    regular expressions the class uses. *)

From Stdlib Require Import ZArith List Bool Lia String Ascii.
From Stdlib Require Import Floats.SpecFloat.
From stdpp Require Import gmap list.
Import ListNotations.

Local Open Scope Z_scope.

(** ** JavaScript strings *)

(** A JavaScript string is a sequence of 16-bit code units; [length],
    [slice] and the (non-unicode) regular expressions all work on code
    units. *)
Definition code_unit := N.
Abbreviation str := (list code_unit).

(** String literals of the source, written as Rocq strings. *)
Definition lit (s : string) : str :=
  map N_of_ascii (list_ascii_of_string s).

Module JS.

(** *** Character classes *)

Definition isDigit (c : code_unit) : bool := ((48 <=? c) && (c <=? 57))%N.

(** [\s], which is also the white space [parseInt] and [parseFloat] skip:
    WhiteSpace and LineTerminator of ECMA-262. *)
Definition isWhiteSpace (c : code_unit) : bool :=
  ((9 <=? c) && (c <=? 13) || (c =? 32) || (c =? 160) || (c =? 5760)
   || (8192 <=? c) && (c <=? 8202) || (c =? 8232) || (c =? 8233)
   || (c =? 8239) || (c =? 8287) || (c =? 12288) || (c =? 65279))%N.

Definition isDot (c : code_unit) : bool := (c =? 46)%N.

(** *** Numbers: IEEE-754 binary64 *)

Definition number := spec_float.
Definition prec : Z := 53.
Definition emax : Z := 1024.

Definition NaN : number := S754_nan.
Definition isNaN (x : number) : bool :=
  match x with S754_nan => true | _ => false end.

Definition add : number -> number -> number := SFadd prec emax.
Definition mul : number -> number -> number := SFmul prec emax.
Definition div : number -> number -> number := SFdiv prec emax.
(** [x > y] *)
Definition gt (x y : number) : bool := SFltb y x.

(** The number nearest to [n / d] (ties to even), with the given sign. *)
Definition of_ratio (neg : bool) (n : N) (d : positive) : number :=
  match n with
  | N0 => S754_zero neg
  | Npos p => div (S754_finite neg p 0) (S754_finite false d 0)
  end.

Definition of_Z (z : Z) : number :=
  of_ratio (z <? 0) (Z.abs_N z) 1.

(** *** Reading decimal literals *)

Fixpoint span (p : code_unit -> bool) (s : str) : str * str :=
  match s with
  | c :: r => if p c then let '(a, b) := span p r in (c :: a, b) else ([], s)
  | [] => ([], [])
  end.

Fixpoint trimStart (s : str) : str :=
  match s with
  | c :: r => if isWhiteSpace c then trimStart r else s
  | [] => []
  end.

(** The mathematical value of a string of decimal digits. *)
Definition digitsValue (ds : str) : N :=
  fold_left (fun acc c => (10 * acc + (c - 48))%N) ds 0%N.

(** An optional sign: [true] for [-]. *)
Definition readSign (s : str) : bool * str :=
  match s with
  | 45%N :: r => (true, r)
  | 43%N :: r => (false, r)
  | _ => (false, s)
  end.

Fixpoint isPrefix (p s : str) : bool :=
  match p, s with
  | [], _ => true
  | a :: p', b :: s' => (a =? b)%N && isPrefix p' s'
  | _ :: _, [] => false
  end.

(** [parseInt(s, 10)]: skip white space, read a sign, take the longest run
    of decimal digits; [NaN] when there is none. *)
Definition parseInt (s : str) : number :=
  let '(neg, s1) := readSign (trimStart s) in
  let '(ds, _) := span isDigit s1 in
  match ds with
  | [] => NaN
  | _ => of_ratio neg (digitsValue ds) 1
  end.

(** The exponent part [e±ddd] of a decimal literal, 0 when absent or
    incomplete. *)
Definition readExponent (s : str) : Z :=
  match s with
  | c :: r =>
      if ((c =? 101) || (c =? 69))%N then
        let '(neg, r1) := readSign r in
        let '(ds, _) := span isDigit r1 in
        match ds with
        | [] => 0
        | _ => if neg then - Z.of_N (digitsValue ds) else Z.of_N (digitsValue ds)
        end
      else 0
  | [] => 0
  end.

(** [parseFloat(s)]: skip white space and take the longest prefix that is a
    StrDecimalLiteral; [NaN] when there is none. *)
Definition parseFloat (s : str) : number :=
  let '(neg, s1) := readSign (trimStart s) in
  if isPrefix (lit "Infinity") s1 then S754_infinity neg else
  let '(ip, r1) := span isDigit s1 in
  let '(fp, r2) :=
    match r1 with
    | c :: r => if isDot c then span isDigit r else ([], r1)
    | [] => ([], r1)
    end in
  match ip ++ fp with
  | [] => NaN
  | ds =>
      let ex := readExponent r2 - Z.of_nat (length fp) in
      of_ratio neg (digitsValue ds * N.pow 10 (Z.to_N ex))
                   (if ex <? 0 then Pos.pow 10 (Z.to_pos (- ex)) else 1%positive)
  end.

(** [ToNumber] of a [number | null]: [null] is [+0]. *)
Definition toNumber (o : option number) : number :=
  default (S754_zero false) o.

(** [s.slice(start)]: a negative [start] counts from the end. *)
Definition slice (s : str) (start : Z) : str :=
  let len := Z.of_nat (length s) in
  let from := if start <? 0 then Z.max (len + start) 0 else Z.min start len in
  drop (Z.to_nat from) s.

(** *** Regular expressions

    The fragment of JavaScript regular expressions the class uses:
    literal characters, a greedy [*] or [+] over one character class,
    an optional part, capturing groups and concatenation. *)

Inductive regex :=
| Chars (l : str)
| Star (p : code_unit -> bool)
| Plus (p : code_unit -> bool)
| Opt (r : regex)
| Group (i : nat) (r : regex)
| Seq (r1 r2 : regex).

(** The result of a successful match: index 0 is the matched text and
    index [i] the text of the [i]-th group; a group that took no part in
    the match has no entry ([undefined]). *)
Abbreviation captures := (gmap nat str).

Fixpoint stripPrefix (l s : str) : option str :=
  match l, s with
  | [], _ => Some s
  | a :: l', b :: s' => if (a =? b)%N then stripPrefix l' s' else None
  | _ :: _, [] => None
  end.

(** Greedy repetition of a character class: the longest run first, then
    one character less each time the rest of the pattern fails. *)
Fixpoint greedy (p : code_unit -> bool) (s : str)
    (k : str -> option captures) : option captures :=
  match s with
  | c :: r =>
      if p c then
        match greedy p r k with
        | Some m => Some m
        | None => k s
        end
      else k s
  | [] => k []
  end.

(** The text consumed between input [s] and its suffix [rest]. *)
Definition consumed (s rest : str) : str :=
  take (length s - length rest)%nat s.

(** Backtracking matcher in continuation-passing style: [k] is the rest of
    the pattern. *)
Fixpoint run (r : regex) (s : str) (caps : captures)
    (k : str -> captures -> option captures) : option captures :=
  match r with
  | Chars l =>
      match stripPrefix l s with
      | Some rest => k rest caps
      | None => None
      end
  | Star p => greedy p s (fun rest => k rest caps)
  | Plus p =>
      match s with
      | c :: r' => if p c then greedy p r' (fun rest => k rest caps) else None
      | [] => None
      end
  | Opt r' =>
      match run r' s caps k with
      | Some m => Some m
      | None => k s caps
      end
  | Group i r' =>
      run r' s caps (fun rest caps' => k rest (<[i := consumed s rest]> caps'))
  | Seq r1 r2 => run r1 s caps (fun rest caps' => run r2 rest caps' k)
  end.

(** A match that starts at the first character of [s]. *)
Definition matchHere (r : regex) (s : str) : option captures :=
  run r s ∅ (fun rest caps => Some (<[0%nat := consumed s rest]> caps)).

(** [s.match(r)] for a regular expression without flags: the leftmost
    match, or [null]. *)
Fixpoint match_ (s : str) (r : regex) : option captures :=
  match matchHere r s with
  | Some m => Some m
  | None =>
      match s with
      | _ :: rest => match_ rest r
      | [] => None
      end
  end.

(** [m[i]] converted to a string, as [parseInt] and [parseFloat] do with
    their argument: a missing group reads as [undefined]. *)
Definition at_ (m : captures) (i : nat) : str :=
  default (lit "undefined") (m !! i).

End JS.

Declare Scope regex_scope.
Delimit Scope regex_scope with regex.
Infix "⋅" := JS.Seq (at level 41, right associativity) : regex_scope.
Local Open Scope regex_scope.

(** ** Types of the package ([types/index.ts], [types/events.ts]) *)

Record FFMPEGProgress := {
  duration : option JS.number;
  percent : option JS.number;
  frame : option JS.number;
  fps : option JS.number;
  quality : option JS.number;
  sizeKB : option JS.number;
  timeInSeconds : option JS.number;
  bitrateKbps : option JS.number;
  speed : option JS.number;
}.

Record FFMPEGSpawnErr := { code : Z; message : str }.

(** [Result<void, FFMPEGSpawnErr>] of neverthrow. *)
Inductive Result :=
| ok
| err (e : FFMPEGSpawnErr).

(** Objects live in a store; a value of type [FFMPEGProgress] in the
    source is a reference into it. *)
Abbreviation ref := nat.

(** What the instance does to the outside: the events of [FFMPEGEvents]
    it emits, and its calls to the child-process API and to the [resolve]
    function of the promise [start] returned for a child. *)
Inductive effect :=
| Emit_stdout (data : str)
| Emit_stderr (data : str)
| Emit_progress (progress : ref)
| Spawn (execPath : str) (args : list str)
| Kill (child : nat) (signal : option str)
| Resolve (child : nat) (r : Result).

(** ** The class FFMPEG *)

Module FFMPEG.

Definition MAX_STDERR_LENGTH : Z := 32000.

Definition EmptyProgress : FFMPEGProgress :=
  {| duration := None; percent := None; frame := None; fps := None;
     quality := None; sizeKB := None; timeInSeconds := None;
     bitrateKbps := None; speed := None |}.

#[global] Instance FFMPEGProgress_inhabited : Inhabited FFMPEGProgress :=
  populate EmptyProgress.

(** The fields of an instance. [child] names the spawned process,
    [_progress] refers to the progress object in the store.  [args] holds
    the elements of the array the constructor was given; the source keeps
    that array by reference, so its caller can still change the elements,
    which this record does not follow: no property below depends on what
    [args] contains. *)
Record fields := {
  args : list str;
  child : option nat;
  lastStderr : str;
  _progress : ref;
  _killed : bool;
  execPath : str;
}.

(** What [start] has attached to a spawned child: the two [once]
    listeners, and the promise it returned ([None] while pending). *)
Record ChildProcess := {
  closeListener : bool;
  errorListener : bool;
  settled : option Result;
}.

Record World := {
  this : fields;
  store : gmap ref FFMPEGProgress;
  children : list ChildProcess;
}.

(** *** Field updates *)

Definition set_child (c : option nat) (f : fields) : fields :=
  {| args := args f; child := c; lastStderr := lastStderr f;
     _progress := _progress f; _killed := _killed f; execPath := execPath f |}.
Definition set_lastStderr (s : str) (f : fields) : fields :=
  {| args := args f; child := child f; lastStderr := s;
     _progress := _progress f; _killed := _killed f; execPath := execPath f |}.
Definition set__progress (p : ref) (f : fields) : fields :=
  {| args := args f; child := child f; lastStderr := lastStderr f;
     _progress := p; _killed := _killed f; execPath := execPath f |}.
Definition set__killed (b : bool) (f : fields) : fields :=
  {| args := args f; child := child f; lastStderr := lastStderr f;
     _progress := _progress f; _killed := b; execPath := execPath f |}.

Definition set_duration v (p : FFMPEGProgress) : FFMPEGProgress :=
  {| duration := v; percent := percent p; frame := frame p; fps := fps p;
     quality := quality p; sizeKB := sizeKB p;
     timeInSeconds := timeInSeconds p; bitrateKbps := bitrateKbps p;
     speed := speed p |}.
Definition set_percent v (p : FFMPEGProgress) : FFMPEGProgress :=
  {| duration := duration p; percent := v; frame := frame p; fps := fps p;
     quality := quality p; sizeKB := sizeKB p;
     timeInSeconds := timeInSeconds p; bitrateKbps := bitrateKbps p;
     speed := speed p |}.
Definition set_frame v (p : FFMPEGProgress) : FFMPEGProgress :=
  {| duration := duration p; percent := percent p; frame := v; fps := fps p;
     quality := quality p; sizeKB := sizeKB p;
     timeInSeconds := timeInSeconds p; bitrateKbps := bitrateKbps p;
     speed := speed p |}.
Definition set_fps v (p : FFMPEGProgress) : FFMPEGProgress :=
  {| duration := duration p; percent := percent p; frame := frame p; fps := v;
     quality := quality p; sizeKB := sizeKB p;
     timeInSeconds := timeInSeconds p; bitrateKbps := bitrateKbps p;
     speed := speed p |}.
Definition set_quality v (p : FFMPEGProgress) : FFMPEGProgress :=
  {| duration := duration p; percent := percent p; frame := frame p;
     fps := fps p; quality := v; sizeKB := sizeKB p;
     timeInSeconds := timeInSeconds p; bitrateKbps := bitrateKbps p;
     speed := speed p |}.
Definition set_sizeKB v (p : FFMPEGProgress) : FFMPEGProgress :=
  {| duration := duration p; percent := percent p; frame := frame p;
     fps := fps p; quality := quality p; sizeKB := v;
     timeInSeconds := timeInSeconds p; bitrateKbps := bitrateKbps p;
     speed := speed p |}.
Definition set_timeInSeconds v (p : FFMPEGProgress) : FFMPEGProgress :=
  {| duration := duration p; percent := percent p; frame := frame p;
     fps := fps p; quality := quality p; sizeKB := sizeKB p;
     timeInSeconds := v; bitrateKbps := bitrateKbps p; speed := speed p |}.
Definition set_bitrateKbps v (p : FFMPEGProgress) : FFMPEGProgress :=
  {| duration := duration p; percent := percent p; frame := frame p;
     fps := fps p; quality := quality p; sizeKB := sizeKB p;
     timeInSeconds := timeInSeconds p; bitrateKbps := v; speed := speed p |}.
Definition set_speed v (p : FFMPEGProgress) : FFMPEGProgress :=
  {| duration := duration p; percent := percent p; frame := frame p;
     fps := fps p; quality := quality p; sizeKB := sizeKB p;
     timeInSeconds := timeInSeconds p; bitrateKbps := bitrateKbps p;
     speed := v |}.

(** *** Methods run in a state monad that logs effects *)

Definition M (A : Type) : Type := World -> A * World * list effect.

Definition ret {A} (a : A) : M A := fun w => (a, w, []).
Definition bind {A B} (m : M A) (f : A -> M B) : M B :=
  fun w =>
    let '(a, w1, e1) := m w in
    let '(b, w2, e2) := f a w1 in
    (b, w2, e1 ++ e2).

Declare Scope ffmpeg_scope.
Delimit Scope ffmpeg_scope with ffmpeg.
Notation "x <- m ;; k" := (bind m (fun x => k))
  (at level 100, m at next level, right associativity) : ffmpeg_scope.
Notation "m ;; k" := (bind m (fun _ => k))
  (at level 100, right associativity) : ffmpeg_scope.
Local Open Scope ffmpeg_scope.

Definition get {A} (f : fields -> A) : M A := fun w => (f (this w), w, []).
Definition assign (upd : fields -> fields) : M unit :=
  fun w => (tt, {| this := upd (this w); store := store w;
                   children := children w |}, []).
Definition effect_ (e : effect) : M unit := fun w => (tt, w, [e]).
Definition when (b : bool) (m : M unit) : M unit := if b then m else ret tt.

(** The object [this._progress] refers to. *)
Definition deref (w : World) : FFMPEGProgress :=
  store w !!! _progress (this w).

(** [this._progress.f] *)
Definition progress_ {A} (f : FFMPEGProgress -> A) : M A :=
  fun w => (f (deref w), w, []).
(** [this._progress.f = v] *)
Definition assign_progress (upd : FFMPEGProgress -> FFMPEGProgress) : M unit :=
  fun w => (tt, {| this := this w;
                   store := <[_progress (this w) := upd (deref w)]> (store w);
                   children := children w |}, []).
(** A new object in the store. *)
Definition new (o : FFMPEGProgress) : M ref :=
  fun w => let r := fresh (dom (store w)) in
           (r, {| this := this w; store := <[r := o]> (store w);
                  children := children w |}, []).

(** *** Getters *)

Definition processing : M bool :=
  c <- get child ;; ret (bool_decide (c ≠ None)).

Definition killed : M bool := get _killed.

(** [{ ...this._progress }]: a new object with the same fields. *)
Definition progress : M ref :=
  o <- progress_ id ;; new o.

(** *** Constructor *)

Definition constructor (args : list str) (execPath : option str) : World :=
  {| this := {| args := args; child := None; lastStderr := [];
                _progress := 0%nat; _killed := false;
                execPath := default (lit "ffmpeg") execPath |};
     store := {[ 0%nat := EmptyProgress ]};
     children := [] |}.

(** *** The patterns of [onStderrData] *)

(** [\d+], [\s*] and [[\d\.]+] *)
Definition digits : JS.regex := JS.Plus JS.isDigit.
Definition spaces : JS.regex := JS.Star JS.isWhiteSpace.
Definition digitsDots : JS.regex :=
  JS.Plus (fun c => JS.isDigit c || JS.isDot c).
Definition chars (s : string) : JS.regex := JS.Chars (lit s).
Definition G := JS.Group.

(** [(\d+):(\d+):(\d+(\.\d+)?)] *)
Definition hms : JS.regex :=
  G 1 digits ⋅ chars ":" ⋅ G 2 digits ⋅ chars ":"
  ⋅ G 3 (digits ⋅ JS.Opt (G 4 (chars "." ⋅ digits))).

(** [/Duration: (\d+):(\d+):(\d+(\.\d+)?)/] *)
Definition re_duration : JS.regex := chars "Duration: " ⋅ hms.
(** [/frame=\s*(\d+)\s*fps=/] *)
Definition re_frame : JS.regex :=
  chars "frame=" ⋅ spaces ⋅ G 1 digits ⋅ spaces ⋅ chars "fps=".
(** [/fps=\s*([\d\.]+)\s*q=/] *)
Definition re_fps : JS.regex :=
  chars "fps=" ⋅ spaces ⋅ G 1 digitsDots ⋅ spaces ⋅ chars "q=".
(** [/q=\s*([\d\.]+)/] *)
Definition re_q : JS.regex := chars "q=" ⋅ spaces ⋅ G 1 digitsDots.
(** [/size=\s*([\d.]+)kB/] *)
Definition re_size : JS.regex :=
  chars "size=" ⋅ spaces ⋅ G 1 digitsDots ⋅ chars "kB".
(** [/time=(\d+):(\d+):(\d+(\.\d+)?)/] *)
Definition re_time : JS.regex := chars "time=" ⋅ hms.
(** [/bitrate=\s*([\d.]+)kbits?\/s/] *)
Definition re_bitrate : JS.regex :=
  chars "bitrate=" ⋅ spaces ⋅ G 1 digitsDots ⋅ chars "kbit"
  ⋅ JS.Opt (chars "s") ⋅ chars "/s".
(** [/speed=\s*([\d\.]+)x/] *)
Definition re_speed : JS.regex :=
  chars "speed=" ⋅ spaces ⋅ G 1 digitsDots ⋅ chars "x".

Notation "# z" := (JS.of_Z z) (at level 1, format "# z") : ffmpeg_scope.

(** [hours * 3600 + minutes * 60 + seconds] *)
Definition hms_seconds (hours minutes seconds : JS.number) : JS.number :=
  JS.add (JS.add (JS.mul hours #3600) (JS.mul minutes #60)) seconds.

(** *** onStderrData *)

Definition onStderrData (data : str) : M unit :=
  d <- progress_ duration ;;
  when (bool_decide (d = None)) (
    (* extract duration *)
    match JS.match_ data re_duration with
    | Some durMatch =>
        let hours := JS.parseInt (JS.at_ durMatch 1) in
        let minutes := JS.parseInt (JS.at_ durMatch 2) in
        let seconds := JS.parseFloat (JS.at_ durMatch 3) in
        when (negb (JS.isNaN hours) && negb (JS.isNaN minutes)
              && negb (JS.isNaN seconds))
          (assign_progress (set_duration (Some (hms_seconds hours minutes seconds))))
    | None => ret tt
    end) ;;
  d <- progress_ duration ;;
  when (bool_decide (d ≠ None)) (
    (* track progress *)
    match JS.match_ data re_frame with
    | Some frameMatch =>
        assign_progress (set_frame (Some (JS.parseInt (JS.at_ frameMatch 1))))
    | None => ret tt
    end ;;
    match JS.match_ data re_fps with
    | Some fpsMatch =>
        assign_progress (set_fps (Some (JS.parseFloat (JS.at_ fpsMatch 1))))
    | None => ret tt
    end ;;
    match JS.match_ data re_q with
    | Some qMatch =>
        assign_progress (set_quality (Some (JS.parseFloat (JS.at_ qMatch 1))))
    | None => ret tt
    end ;;
    match JS.match_ data re_size with
    | Some sizeMatch =>
        assign_progress (set_sizeKB (Some (JS.parseFloat (JS.at_ sizeMatch 1))))
    | None => ret tt
    end ;;
    match JS.match_ data re_time with
    | Some timeMatch =>
        let hours := JS.parseInt (JS.at_ timeMatch 1) in
        let minutes := JS.parseInt (JS.at_ timeMatch 2) in
        let seconds := JS.parseFloat (JS.at_ timeMatch 3) in
        when (negb (JS.isNaN hours) && negb (JS.isNaN minutes)
              && negb (JS.isNaN seconds)) (
          assign_progress (set_timeInSeconds (Some (hms_seconds hours minutes seconds))) ;;
          d <- progress_ duration ;;
          when (JS.gt (JS.toNumber d) #0)
            (assign_progress (fun p =>
               set_percent
                 (Some (JS.mul (JS.div (JS.toNumber (timeInSeconds p))
                                       (JS.toNumber (duration p))) #100)) p)))
    | None => ret tt
    end ;;
    match JS.match_ data re_bitrate with
    | Some bitrateMatch =>
        assign_progress (set_bitrateKbps (Some (JS.parseFloat (JS.at_ bitrateMatch 1))))
    | None => ret tt
    end ;;
    match JS.match_ data re_speed with
    | Some speedMatch =>
        assign_progress (set_speed (Some (JS.parseFloat (JS.at_ speedMatch 1))))
    | None => ret tt
    end ;;
    p <- progress ;;
    effect_ (Emit_progress p)).

(** *** start *)

(** What [spawn(this.execPath, this.args)] does: it returns a child
    process, or throws [e] (kept as [String(e)]). *)
Inductive spawn_outcome :=
| Spawned
| Thrown (e : str).

(** What the caller of [start] holds: a result returned at once, or the
    promise attached to a child. *)
Inductive started :=
| Returned (r : Result)
| Pending (child : nat).

Definition set_children (cs : list ChildProcess) (w : World) : World :=
  {| this := this w; store := store w; children := cs |}.

(** The new child process, with no listener yet. *)
Definition spawn : M nat :=
  fun w =>
    (length (children w),
     set_children (children w ++ [{| closeListener := false;
                                     errorListener := false;
                                     settled := None |}]) w,
     []).

Definition alter_child (f : ChildProcess -> ChildProcess) (c : nat) : M unit :=
  fun w => (tt, set_children (alter f c (children w)) w, []).

(** [child.once("close", ...)] and [child.once("error", ...)] *)
Definition once_close (c : nat) : M unit :=
  alter_child (fun ch => {| closeListener := true;
                            errorListener := errorListener ch;
                            settled := settled ch |}) c.
Definition once_error (c : nat) : M unit :=
  alter_child (fun ch => {| closeListener := closeListener ch;
                            errorListener := true;
                            settled := settled ch |}) c.

(** [resolve(r)] on the promise of child [c]: only the first call settles
    the promise. *)
Definition resolve (c : nat) (r : Result) : M unit :=
  alter_child (fun ch => {| closeListener := closeListener ch;
                            errorListener := errorListener ch;
                            settled := match settled ch with
                                       | None => Some r
                                       | Some r0 => Some r0
                                       end |}) c ;;
  effect_ (Resolve c r).

Definition start (sp : spawn_outcome) : M started :=
  p <- processing ;;
  if p then
    ret (Returned (err {| code := -1;
                          message := lit "FFMPEG process already started" |}))
  else
    assign (set_lastStderr []) ;;
    e <- new EmptyProgress ;;
    assign (set__progress e) ;;
    path <- get execPath ;;
    a <- get args ;;
    effect_ (Spawn path a) ;;
    match sp with
    | Thrown e => ret (Returned (err {| code := -1; message := e |}))
    | Spawned =>
        c <- spawn ;;
        assign (set_child (Some c)) ;;
        once_close c ;;
        once_error c ;;
        ret (Pending c)
    end.

(** *** The listeners [start] registers *)

(** [child.stdout.on("data", ...)] *)
Definition on_stdout_data (data : str) : M unit :=
  effect_ (Emit_stdout data).

(** [child.stderr.on("data", ...)] *)
Definition on_stderr_data (data : str) : M unit :=
  effect_ (Emit_stderr data) ;;
  assign (fun f => set_lastStderr (lastStderr f ++ data) f) ;;
  l <- get lastStderr ;;
  when (Z.of_nat (length l) >? MAX_STDERR_LENGTH)
    (assign (fun f => set_lastStderr
                        (JS.slice (lastStderr f) (- MAX_STDERR_LENGTH)) f)) ;;
  onStderrData data.

(** [child.once("close", ...)]: [code] is [null] when a signal ended the
    process. *)
Definition on_close (c : nat) (code : option Z) : M unit :=
  assign (set_child None) ;;
  if bool_decide (code = Some 0) then resolve c ok
  else
    l <- get lastStderr ;;
    resolve c (err {| code := default (-1) code; message := l |}).

(** [child.once("error", ...)]: [message] is [e.message]. *)
Definition on_error (c : nat) (message : str) : M unit :=
  assign (set_child None) ;;
  resolve c (err {| code := -1; message := message |}).

(** *** stop *)

(** [accepted] is what [child.kill(signal)] answers if it is called. *)
Definition stop (signal : option str) (accepted : bool) : M bool :=
  c <- get child ;;
  k <- get _killed ;;
  match c with
  | Some ch =>
      if negb k then
        effect_ (Kill ch signal) ;;
        if accepted then
          assign (set__killed true) ;;
          ret true
        else ret false
      else ret false
  | None => ret false
  end.

(** *** The instance in its environment

    JavaScript runs one method or listener at a time, so each of them is
    one step.  What the environment decides is a parameter of the step:
    whether [spawn] returns or throws, what [kill] answers, and which
    events Node delivers.  Subscribers of the emitted events are outside
    the model: they are taken not to call back into the instance while an
    event is being emitted. *)

(** The events Node delivers for a child process. *)
Inductive event :=
| Stdout_data (c : nat) (data : str)
| Stderr_data (c : nat) (data : str)
| Close (c : nat) (code : option Z)
| Error (c : nat) (message : str).

Definition get_children : M (list ChildProcess) :=
  fun w => (children w, w, []).

(** Delivery runs the listeners registered for the event: the data
    listeners of a spawned child stay for good, a [once] listener is
    removed before it runs. *)
Definition deliver (ev : event) : M unit :=
  cs <- get_children ;;
  match ev with
  | Stdout_data c data =>
      when (bool_decide (c < length cs)%nat) (on_stdout_data data)
  | Stderr_data c data =>
      when (bool_decide (c < length cs)%nat) (on_stderr_data data)
  | Close c code =>
      when (default false (closeListener <$> cs !! c)) (
        alter_child (fun ch => {| closeListener := false;
                                  errorListener := errorListener ch;
                                  settled := settled ch |}) c ;;
        on_close c code)
  | Error c message =>
      when (default false (errorListener <$> cs !! c)) (
        alter_child (fun ch => {| closeListener := closeListener ch;
                                  errorListener := false;
                                  settled := settled ch |}) c ;;
        on_error c message)
  end.

(** One thing that happens to the instance: a call of a public method or
    the delivery of an event. *)
Inductive action :=
| Call_start (sp : spawn_outcome)
| Call_stop (signal : option str) (accepted : bool)
| Call_progress
| Deliver (ev : event).

Definition step (a : action) : M unit :=
  match a with
  | Call_start sp => _ <- start sp ;; ret tt
  | Call_stop signal accepted => _ <- stop signal accepted ;; ret tt
  | Call_progress => _ <- progress ;; ret tt
  | Deliver ev => deliver ev
  end.

(** The world and the effects after a method has run. *)
Definition exec {A} (m : M A) (w : World) : World := snd (fst (m w)).
Definition effects {A} (m : M A) (w : World) : list effect := snd (m w).
Definition result {A} (m : M A) (w : World) : A := fst (fst (m w)).

Definition steps (acts : list action) (w : World) : World :=
  fold_left (fun w a => exec (step a) w) acts w.

(** The worlds an instance can be in. *)
Inductive reachable : World -> Prop :=
| reachable_new args execPath : reachable (constructor args execPath)
| reachable_step w a : reachable w -> reachable (exec (step a) w).

End FFMPEG.

(** * Vocabulary of the properties *)

Import FFMPEG.
Local Open Scope ffmpeg_scope.

(** ** Patterns and decimal literals *)

Module JS_spec.
Import JS.

(** A non-empty string of decimal digits: what [\d+] matches. *)
Definition digit1 (s : str) : Prop :=
  s <> [] /\ Forall (fun c => isDigit c = true) s.

(** What [\d+(\.\d+)?] matches. *)
Definition decimal (s : str) : Prop :=
  exists a, digit1 a /\ (s = a \/ exists b, digit1 b /\ s = a ++ lit "." ++ b).

(** The strings a pattern matches. *)
Fixpoint lang (r : regex) (s : str) : Prop :=
  match r with
  | Chars l => s = l
  | Star p => Forall (fun c => p c = true) s
  | Plus p => s <> [] /\ Forall (fun c => p c = true) s
  | Opt r' => s = [] \/ lang r' s
  | Group _ r' => lang r' s
  | Seq r1 r2 => exists a b, s = a ++ b /\ lang r1 a /\ lang r2 b
  end.

(** [Q i] holds of every text group [i] of the pattern can capture. *)
Fixpoint groups_ok (Q : nat -> str -> Prop) (r : regex) : Prop :=
  match r with
  | Group i r' => (forall s, lang r' s -> Q i s) /\ groups_ok Q r'
  | Opt r' => groups_ok Q r'
  | Seq r1 r2 => groups_ok Q r1 /\ groups_ok Q r2
  | _ => True
  end.

(** The groups that take part in every match of the pattern. *)
Fixpoint sets (r : regex) : list nat :=
  match r with
  | Group i r' => i :: sets r'
  | Seq r1 r2 => sets r1 ++ sets r2
  | _ => []
  end.

(** Every captured text is one [Q] allows for its group. *)
Definition caps_ok (Q : nat -> str -> Prop) (caps : captures) : Prop :=
  forall i s, caps !! i = Some s -> Q i s.

(** What the groups of [hms] capture. *)
Definition hmsQ (i : nat) (s : str) : Prop :=
  match i with
  | 1%nat | 2%nat => digit1 s
  | 3%nat => decimal s
  | _ => True
  end.

End JS_spec.

(** ** The progress object in the store *)

(** The world with the object [this._progress] refers to replaced. *)
Definition put (p : FFMPEGProgress) (w : World) : World :=
  {| this := this w;
     store := <[_progress (this w) := p]> (store w);
     children := children w |}.

(** [this._progress] refers to an object of the store. *)
Definition wf (w : World) : Prop :=
  is_Some (store w !! _progress (this w)).

(** ** [onStderrData] as a function on the progress object

    The statements of [onStderrData] one by one, as functions on the object
    [this._progress] refers to; [onStderrData_spec] below proves that they
    compute what the method does. *)

(** The duration part: only while the duration is unknown. *)
Definition discover (data : str) (p : FFMPEGProgress) : FFMPEGProgress :=
  match duration p with
  | Some _ => p
  | None =>
      match JS.match_ data re_duration with
      | Some m =>
          let hours := JS.parseInt (JS.at_ m 1) in
          let minutes := JS.parseInt (JS.at_ m 2) in
          let seconds := JS.parseFloat (JS.at_ m 3) in
          if negb (JS.isNaN hours) && negb (JS.isNaN minutes)
             && negb (JS.isNaN seconds)
          then set_duration (Some (hms_seconds hours minutes seconds)) p
          else p
      | None => p
      end
  end.

(** The seven statements of the tracking part. *)
Definition track_frame (data : str) (p : FFMPEGProgress) : FFMPEGProgress :=
  match JS.match_ data re_frame with
  | Some m => set_frame (Some (JS.parseInt (JS.at_ m 1))) p
  | None => p
  end.
Definition track_fps (data : str) (p : FFMPEGProgress) : FFMPEGProgress :=
  match JS.match_ data re_fps with
  | Some m => set_fps (Some (JS.parseFloat (JS.at_ m 1))) p
  | None => p
  end.
Definition track_q (data : str) (p : FFMPEGProgress) : FFMPEGProgress :=
  match JS.match_ data re_q with
  | Some m => set_quality (Some (JS.parseFloat (JS.at_ m 1))) p
  | None => p
  end.
Definition track_size (data : str) (p : FFMPEGProgress) : FFMPEGProgress :=
  match JS.match_ data re_size with
  | Some m => set_sizeKB (Some (JS.parseFloat (JS.at_ m 1))) p
  | None => p
  end.
Definition track_time (data : str) (p : FFMPEGProgress) : FFMPEGProgress :=
  match JS.match_ data re_time with
  | Some m =>
      let hours := JS.parseInt (JS.at_ m 1) in
      let minutes := JS.parseInt (JS.at_ m 2) in
      let seconds := JS.parseFloat (JS.at_ m 3) in
      if negb (JS.isNaN hours) && negb (JS.isNaN minutes)
         && negb (JS.isNaN seconds)
      then
        let p1 := set_timeInSeconds (Some (hms_seconds hours minutes seconds)) p in
        if JS.gt (JS.toNumber (duration p1)) #0
        then set_percent
               (Some (JS.mul (JS.div (JS.toNumber (timeInSeconds p1))
                                     (JS.toNumber (duration p1))) #100)) p1
        else p1
      else p
  | None => p
  end.
Definition track_bitrate (data : str) (p : FFMPEGProgress) : FFMPEGProgress :=
  match JS.match_ data re_bitrate with
  | Some m => set_bitrateKbps (Some (JS.parseFloat (JS.at_ m 1))) p
  | None => p
  end.
Definition track_speed (data : str) (p : FFMPEGProgress) : FFMPEGProgress :=
  match JS.match_ data re_speed with
  | Some m => set_speed (Some (JS.parseFloat (JS.at_ m 1))) p
  | None => p
  end.

(** The tracking part, in the order of the source. *)
Definition track (data : str) (p : FFMPEGProgress) : FFMPEGProgress :=
  track_speed data (track_bitrate data (track_time data (track_size data
    (track_q data (track_fps data (track_frame data p)))))).

(** The progress object after a chunk. *)
Definition parse (data : str) (p : FFMPEGProgress) : FFMPEGProgress :=
  let p1 := discover data p in
  match duration p1 with
  | Some _ => track data p1
  | None => p1
  end.

(** ** The worlds that methods and listeners lead to *)

(** The world after [this.progress] has made its copy of [p]. *)
Definition copied (p : FFMPEGProgress) (w : World) : World :=
  {| this := this w;
     store := <[fresh (dom (store w)) := p]> (store w);
     children := children w |}.

(** The world with the fields of the instance updated. *)
Definition update (upd : fields -> fields) (w : World) : World :=
  {| this := upd (this w); store := store w; children := children w |}.

(** The trailing buffer after one more chunk. *)
Definition appended (buf data : str) : str :=
  let l := buf ++ data in
  if Z.of_nat (length l) >? MAX_STDERR_LENGTH
  then JS.slice l (- MAX_STDERR_LENGTH)
  else l.

(** The world on entry of [start] once the instance is known to be idle:
    an empty buffer and a new, empty progress object. *)
Definition restarted (w : World) : World :=
  let e := fresh (dom (store w)) in
  {| this := set__progress e (set_lastStderr [] (this w));
     store := <[e := EmptyProgress]> (store w);
     children := children w |}.

(** A child with both [once] listeners and a pending promise. *)
Definition listening : ChildProcess :=
  {| closeListener := true; errorListener := true; settled := None |}.

(** The world after [resolve(r)] for child [c]. *)
Definition resolved (c : nat) (r : Result) (w : World) : World :=
  set_children
    (alter (fun ch => {| closeListener := closeListener ch;
                         errorListener := errorListener ch;
                         settled := match settled ch with
                                    | None => Some r
                                    | Some r0 => Some r0
                                    end |}) c (children w)) w.

(** The result the close listener resolves with. *)
Definition close_result (code : option Z) (buf : str) : Result :=
  match code with
  | Some 0 => ok
  | _ => err {| code := default (-1) code; message := buf |}
  end.

(** The world with a [once] listener of child [c] removed. *)
Definition close_fired (c : nat) (w : World) : World :=
  set_children
    (alter (fun ch => {| closeListener := false;
                         errorListener := errorListener ch;
                         settled := settled ch |}) c (children w)) w.
Definition error_fired (c : nat) (w : World) : World :=
  set_children
    (alter (fun ch => {| closeListener := closeListener ch;
                         errorListener := false;
                         settled := settled ch |}) c (children w)) w.

(** ** Invariants *)

(** A progress object without duration is empty, and one with a percentage
    has a positive duration. *)
Definition progress_inv (p : FFMPEGProgress) : Prop :=
  match duration p with
  | None => p = EmptyProgress
  | Some d => percent p = None \/ JS.gt d #0 = true
  end.

(** A pending promise has both its listeners. *)
Definition child_inv (ch : ChildProcess) : Prop :=
  settled ch = None -> closeListener ch = true /\ errorListener ch = true.

(** What holds in every world an instance can be in. *)
Record invariant (w : World) : Prop := {
  inv_wf : wf w;
  inv_store : forall r p, store w !! r = Some p -> progress_inv p;
  inv_children : Forall child_inv (children w);
  inv_child : forall c, child (this w) = Some c -> (c < length (children w))%nat;
}.

(** One action as a function on worlds; [exec_step_next] below proves
    that it is the world [step] leads to. *)
Definition next (a : action) (w : World) : World :=
  match a with
  | Call_start sp =>
      match child (this w) with
      | Some _ => w
      | None =>
          let w1 := restarted w in
          match sp with
          | Thrown _ => w1
          | Spawned =>
              {| this := set_child (Some (length (children w))) (this w1);
                 store := store w1;
                 children := children w ++ [listening] |}
          end
      end
  | Call_stop _ accepted =>
      match child (this w) with
      | Some _ =>
          if _killed (this w) then w
          else if accepted then update (set__killed true) w else w
      | None => w
      end
  | Call_progress => copied (deref w) w
  | Deliver (Stdout_data _ _) => w
  | Deliver (Stderr_data c data) =>
      if bool_decide (c < length (children w))%nat then
        let w1 :=
          update (set_lastStderr (appended (lastStderr (this w)) data)) w in
        let p' := parse data (deref w) in
        match duration p' with
        | Some _ => copied p' (put p' w1)
        | None => put p' w1
        end
      else w
  | Deliver (Close c code) =>
      if default false (closeListener <$> children w !! c)
      then resolved c (close_result code (lastStderr (this w)))
             (update (set_child None) (close_fired c w))
      else w
  | Deliver (Error c msg) =>
      if default false (errorListener <$> children w !! c)
      then resolved c (err {| code := -1; message := msg |})
             (update (set_child None) (error_fired c w))
      else w
  end.

(** ** Concrete worlds *)

(** A new instance, and the same instance after a first [start] whose
    spawn succeeded. *)
Definition idle : World :=
  constructor [lit "-i"; lit "input.mp4"; lit "output.mp4"] None.
Definition running : World := exec (step (Call_start Spawned)) idle.

(** A world between two runs: the first run received two diagnostic
    chunks, was stopped, and its process was ended by the signal. *)
Definition finished : World :=
  steps [Deliver (Stderr_data 0 (lit "  Duration: 00:00:10.00, start: 0.000000"));
         Deliver (Stderr_data 0 (lit "frame=  123 fps= 25 q=28.0 size=     256kB time=00:00:05.00 bitrate= 419.4kbits/s speed=1.5x"));
         Call_stop None true;
         Deliver (Close 0 None)] running.

(** ** Promises, chunks and the trailing buffer *)

(** The settled value of the promise [start] returned for child [c]. *)
Definition promise (c : nat) (w : World) : option Result :=
  ch ← children w !! c; settled ch.

(** Delivering [ev] clears the process handle and then calls [resolve(r)]
    for child [c], which settles the promise with [r]. *)
Definition resolves_with (ev : event) (c : nat) (r : Result) (w : World) : Prop :=
  exists w0,
    child (this w0) = None
    /\ deliver ev w = resolve c r w0
    /\ promise c (exec (deliver ev) w) = Some r
    /\ result processing (exec (deliver ev) w) = false.

(** Calls of [start]. *)
Definition is_start (a : action) : bool :=
  match a with Call_start _ => true | _ => false end.

(** The chunks a sequence of actions delivers on the diagnostic channels
    of the first [n] children. *)
Definition stderr_chunks (n : nat) (acts : list action) : list str :=
  omap (fun a => match a with
                 | Deliver (Stderr_data c data) =>
                     if bool_decide (c < n)%nat then Some data else None
                 | _ => None
                 end) acts.

(** The chunks a sequence of actions delivers on the diagnostic channel
    of child [c] alone. *)
Definition run_chunks (c : nat) (acts : list action) : list str :=
  omap (fun a => match a with
                 | Deliver (Stderr_data c' data) =>
                     if bool_decide (c' = c) then Some data else None
                 | _ => None
                 end) acts.

(** A world between two runs in which the process of the first run is
    still alive: [kill] was rejected and the child reported the error. *)
Definition kill_failed : World :=
  steps [Call_stop None false; Deliver (Error 0 (lit "kill EPERM"))] running.

(** The last [n] code units of [s], all of [s] when it is shorter. *)
Definition trailing (n : nat) (s : str) : str := drop (length s - n) s.

(** ** Traces of effects *)

(** What one action emits, as a function of the world; [effects_step]
    below proves that these are the effects of [step]. *)
Definition emitted (a : action) (w : World) : list effect :=
  match a with
  | Call_start _ =>
      match child (this w) with
      | Some _ => []
      | None => [Spawn (execPath (this w)) (args (this w))]
      end
  | Call_stop signal _ =>
      match child (this w) with
      | Some ch => if _killed (this w) then [] else [Kill ch signal]
      | None => []
      end
  | Call_progress => []
  | Deliver (Stdout_data c data) =>
      if bool_decide (c < length (children w))%nat
      then [Emit_stdout data] else []
  | Deliver (Stderr_data c data) =>
      if bool_decide (c < length (children w))%nat then
        let p' := parse data (deref w) in
        Emit_stderr data
        :: match duration p' with
           | Some _ =>
               [Emit_progress
                  (fresh (dom (<[_progress (this w) := p']> (store w))))]
           | None => []
           end
      else []
  | Deliver (Close c code) =>
      if default false (closeListener <$> children w !! c)
      then [Resolve c (close_result code (lastStderr (this w)))] else []
  | Deliver (Error c msg) =>
      if default false (errorListener <$> children w !! c)
      then [Resolve c (err {| code := -1; message := msg |})] else []
  end.

(** The effects of a sequence of actions, in order. *)
Fixpoint trace (acts : list action) (w : World) : list effect :=
  match acts with
  | [] => []
  | a :: acts' => effects (step a) w ++ trace acts' (exec (step a) w)
  end.

(** The chunks of the stdout and stderr events among some effects. *)
Definition stdout_events (es : list effect) : list str :=
  omap (fun e => match e with Emit_stdout d => Some d | _ => None end) es.
Definition stderr_events (es : list effect) : list str :=
  omap (fun e => match e with Emit_stderr d => Some d | _ => None end) es.

(** The chunks a sequence of actions delivers on the standard output of
    the first [n] children. *)
Definition stdout_chunks (n : nat) (acts : list action) : list str :=
  omap (fun a => match a with
                 | Deliver (Stdout_data c data) =>
                     if bool_decide (c < n)%nat then Some data else None
                 | _ => None
                 end) acts.

(** ** Numbers that are not [NaN] *)

(** Zero, finite or infinite, with the sign bit clear. *)
Definition nonneg (x : JS.number) : bool :=
  match x with
  | S754_nan => false
  | S754_zero s | S754_infinity s | S754_finite s _ _ => negb s
  end.

(** A field that is unknown or holds a number other than [NaN]. *)
Definition numeric (o : option JS.number) : Prop :=
  forall x, o = Some x -> JS.isNaN x = false.

(** The three fields whose assignments are guarded or read [\d+]. *)
Definition guarded_numeric (p : FFMPEGProgress) : Prop :=
  numeric (duration p) /\ numeric (timeInSeconds p) /\ numeric (frame p).

(** The handle refers to the child spawned last, and that child's promise
    is pending. *)
Definition handle_inv (w : World) : Prop :=
  forall c, child (this w) = Some c ->
    S c = length (children w)
    /\ exists ch, children w !! c = Some ch /\ settled ch = None.

(** The value of a field after a chunk: what the chunk's match parses to,
    the old value when the pattern does not match. *)
Definition latest (o : option JS.captures) (parse_number : str -> JS.number)
    (old : option JS.number) : option JS.number :=
  match o with
  | Some m => Some (parse_number (JS.at_ m 1))
  | None => old
  end.

(** A world with a late event to come: the first child reported an error,
    the instance was started again, and the first child has not closed
    yet. *)
Definition restarted_early : World :=
  steps [Deliver (Error 0 (lit "spawn ENOENT")); Call_start Spawned] running.

(** * Properties *)

(** ** Facts about the runtime *)

Module JS_facts.
Import JS JS_spec.

(** *** Rounding never produces [NaN] *)

Lemma shr_1_nonneg mrs : 0 <= shr_m mrs -> 0 <= shr_m (shr_1 mrs).
Proof.
  destruct mrs as [m r s]; simpl. intros H.
  destruct m as [| [p | p |] | p]; simpl; lia.
Qed.

Lemma iter_shr_1_nonneg p : forall mrs,
  0 <= shr_m mrs -> 0 <= shr_m (SpecFloat.iter_pos shr_1 p mrs).
Proof.
  induction p as [p IH | p IH |]; intros mrs H; simpl.
  - apply IH, IH, shr_1_nonneg, H.
  - apply IH, IH, H.
  - apply shr_1_nonneg, H.
Qed.

Lemma shr_fexp_nonneg m e l :
  0 <= m -> 0 <= shr_m (fst (shr_fexp prec emax m e l)).
Proof.
  intros H. unfold shr_fexp, shr.
  assert (H0 : 0 <= shr_m (shr_record_of_loc m l)).
  { destruct l as [| []]; exact H. }
  destruct (_ - e); simpl; auto using iter_shr_1_nonneg.
Qed.

Lemma round_nearest_even_nonneg m l : 0 <= m -> 0 <= round_nearest_even m l.
Proof.
  intros H. destruct l as [| []]; simpl; try lia. destruct (Z.even m); lia.
Qed.

Lemma binary_round_aux_not_nan sx mx ex lx :
  0 <= mx -> isNaN (binary_round_aux prec emax sx mx ex lx) = false.
Proof.
  intros H. unfold binary_round_aux.
  pose proof (shr_fexp_nonneg mx ex lx H) as H1.
  destruct (shr_fexp prec emax mx ex lx) as [mrs' e']. simpl in H1.
  pose proof (shr_fexp_nonneg _ e' loc_Exact
                (round_nearest_even_nonneg _ (loc_of_shr_record mrs') H1)) as H2.
  destruct (shr_fexp prec emax _ e' loc_Exact) as [mrs'' e'']. simpl in H2.
  destruct (shr_m mrs''); [reflexivity | | lia].
  destruct (e'' <=? emax - prec); reflexivity.
Qed.

Lemma of_ratio_not_nan neg n d : isNaN (of_ratio neg n d) = false.
Proof.
  destruct n as [| p]; [reflexivity |]. unfold of_ratio, div, SFdiv.
  unfold SFdiv_core_binary.
  set (m' := match _ - _ with Z0 => _ | Zpos _ => _ | Zneg _ => _ end).
  assert (Hm : 0 <= m').
  { subst m'. destruct (_ - _); try lia. apply Z.shiftl_nonneg. lia. }
  pose proof (Z_div_mod m' (Z.pos d) ltac:(lia)) as Hq.
  destruct (Z.div_eucl m' (Z.pos d)) as [q r].
  apply binary_round_aux_not_nan. destruct Hq as [Hq Hr]. nia.
Qed.

(** *** Decimal literals *)

Lemma isDigit_cases c :
  isDigit c = true ->
  (c = 48 \/ c = 49 \/ c = 50 \/ c = 51 \/ c = 52 \/ c = 53 \/ c = 54
   \/ c = 55 \/ c = 56 \/ c = 57)%N.
Proof.
  unfold isDigit. rewrite andb_true_iff, !N.leb_le. lia.
Qed.

Ltac digit_cases H :=
  apply isDigit_cases in H;
  repeat (destruct H as [H | H]; [subst; try reflexivity |]);
  subst; try reflexivity.

Lemma span_all p s :
  Forall (fun c => p c = true) s -> span p s = (s, []).
Proof.
  induction 1 as [| c s Hc _ IH]; simpl; [reflexivity |].
  now rewrite Hc, IH.
Qed.

Lemma span_stop p a c rest :
  Forall (fun c => p c = true) a -> p c = false ->
  span p (a ++ c :: rest) = (a, c :: rest).
Proof.
  intros Ha Hc. induction Ha as [| x a Hx _ IH]; simpl.
  - now rewrite Hc.
  - now rewrite Hx, IH.
Qed.

Lemma digit1_head s :
  digit1 s -> exists c r, s = c :: r /\ isDigit c = true.
Proof.
  intros [Hne Hall]. destruct s as [| c r]; [congruence |].
  inversion Hall; subst. eauto.
Qed.

Lemma trimStart_digit c r : isDigit c = true -> trimStart (c :: r) = c :: r.
Proof. intros H. digit_cases H. Qed.

Lemma readSign_digit c r : isDigit c = true -> readSign (c :: r) = (false, c :: r).
Proof. intros H. digit_cases H. Qed.

Lemma parseInt_digits s : digit1 s -> isNaN (parseInt s) = false.
Proof.
  intros Hs. destruct (digit1_head s Hs) as (c & r & -> & Hc).
  unfold parseInt. rewrite trimStart_digit, readSign_digit by assumption.
  rewrite span_all by apply Hs. apply of_ratio_not_nan.
Qed.

Lemma parseFloat_decimal s : decimal s -> isNaN (parseFloat s) = false.
Proof.
  intros (a & Ha & Hs).
  destruct (digit1_head a Ha) as (c & r & -> & Hc).
  assert (Hstart : forall t,
    parseFloat ((c :: r) ++ t)
    = let '(ip, r1) := span isDigit ((c :: r) ++ t) in
      let '(fp, r2) :=
        match r1 with
        | c :: r => if isDot c then span isDigit r else ([], r1)
        | [] => ([], r1)
        end in
      match ip ++ fp with
      | [] => NaN
      | ds =>
          let ex := readExponent r2 - Z.of_nat (length fp) in
          of_ratio false (digitsValue ds * N.pow 10 (Z.to_N ex))
            (if ex <? 0 then Pos.pow 10 (Z.to_pos (- ex)) else 1%positive)
      end).
  { intros t. unfold parseFloat. simpl app.
    rewrite trimStart_digit, readSign_digit by assumption.
    replace (isPrefix (lit "Infinity") (c :: r ++ t)) with false;
      [reflexivity |].
    clear -Hc. digit_cases Hc. }
  destruct Hs as [-> | (b & Hb & ->)].
  - rewrite <- (app_nil_r (c :: r)), Hstart, app_nil_r.
    rewrite span_all by apply Ha. simpl. apply of_ratio_not_nan.
  - rewrite Hstart. change (lit "." ++ b) with (46%N :: b).
    rewrite span_stop by (apply Ha || reflexivity).
    change (isDot 46%N) with true. cbv iota. rewrite span_all by apply Hb.
    destruct (digit1_head b Hb) as (c' & r' & -> & _).
    simpl. apply of_ratio_not_nan.
Qed.

(** *** What a match captures *)

Lemma stripPrefix_Some l : forall s rest,
  stripPrefix l s = Some rest -> s = l ++ rest.
Proof.
  induction l as [| a l IH]; intros s rest H; simpl in H.
  - now inversion H.
  - destruct s as [| b s]; [discriminate |].
    destruct (N.eqb_spec a b); [| discriminate].
    subst. simpl. f_equal. now apply IH.
Qed.

Lemma greedy_sound p k res : forall s,
  greedy p s k = Some res ->
  exists pre rest,
    s = pre ++ rest /\ Forall (fun c => p c = true) pre /\ k rest = Some res.
Proof.
  induction s as [| c s IH]; simpl; intros H.
  - exists [], []. auto.
  - destruct (p c) eqn:Hc.
    + destruct (greedy p s k) as [m |] eqn:Hg.
      * destruct (IH H) as (pre & rest & -> & Hpre & Hk).
        exists (c :: pre), rest. auto.
      * exists [], (c :: s). auto.
    + exists [], (c :: s). auto.
Qed.

Lemma consumed_app (pre rest : str) : consumed (pre ++ rest) rest = pre.
Proof.
  unfold consumed. rewrite length_app.
  replace (length pre + length rest - length rest)%nat with (length pre) by lia.
  now rewrite take_app_length.
Qed.

Lemma run_sound Q r :
  groups_ok Q r ->
  forall s caps k res,
    run r s caps k = Some res ->
    exists pre rest caps',
      s = pre ++ rest /\ lang r pre /\ k rest caps' = Some res
      /\ (caps_ok Q caps -> caps_ok Q caps')
      /\ (forall i, is_Some (caps !! i) \/ In i (sets r) ->
                    is_Some (caps' !! i)).
Proof.
  induction r as [l | p | p | r IH | i r IH | r1 IH1 r2 IH2];
    intros Hok s caps k res H; simpl in H.
  - destruct (stripPrefix l s) as [rest |] eqn:Hl; [| discriminate].
    apply stripPrefix_Some in Hl. exists l, rest, caps.
    simpl. intuition.
  - apply greedy_sound in H. destruct H as (pre & rest & -> & Hp & Hk).
    exists pre, rest, caps. simpl. intuition.
  - destruct s as [| c s]; [discriminate |].
    destruct (p c) eqn:Hc; [| discriminate].
    apply greedy_sound in H. destruct H as (pre & rest & -> & Hp & Hk).
    exists (c :: pre), rest, caps. simpl.
    split; [reflexivity |]. split; [split; [discriminate | auto] |].
    split; [assumption |]. split; [auto |]. intros i [Hi | []]. exact Hi.
  - destruct (run r s caps k) as [m |] eqn:Hr.
    + inversion H; subst.
      destruct (IH Hok _ _ _ _ Hr) as (pre & rest & caps' & ? & ? & ? & ? & Hd).
      exists pre, rest, caps'. simpl. intuition.
    + exists [], s, caps. simpl. intuition.
  - destruct Hok as [HQ Hok].
    destruct (IH Hok _ _ _ _ H) as (pre & rest & caps' & -> & Hl & Hk & Hc & Hd).
    rewrite consumed_app in Hk.
    exists pre, rest, (<[i := pre]> caps'). simpl.
    split; [reflexivity |]. split; [assumption |]. split; [assumption |].
    split.
    + intros Hcaps j x Hj. destruct (decide (i = j)) as [-> | Hne].
      * rewrite lookup_insert_eq in Hj. inversion Hj; subst. now apply HQ.
      * rewrite lookup_insert_ne in Hj by assumption. now apply (Hc Hcaps).
    + intros j Hj. destruct (decide (i = j)) as [-> | Hne].
      * rewrite lookup_insert_eq. eauto.
      * rewrite lookup_insert_ne by assumption. apply Hd.
        destruct Hj as [Hj | [Hj | Hj]]; [now left | congruence | now right].
  - destruct Hok as [Hok1 Hok2].
    destruct (IH1 Hok1 _ _ _ _ H)
      as (pre1 & rest1 & caps1 & -> & Hl1 & Hk1 & Hc1 & Hd1).
    destruct (IH2 Hok2 _ _ _ _ Hk1)
      as (pre2 & rest2 & caps2 & -> & Hl2 & Hk2 & Hc2 & Hd2).
    exists (pre1 ++ pre2), rest2, caps2. simpl.
    split; [now rewrite app_assoc |]. split; [eauto |].
    split; [assumption |]. split; [tauto |].
    intros j Hj. apply Hd2. rewrite in_app_iff in Hj.
    destruct Hj as [Hj | [Hj | Hj]]; [left; apply Hd1; now left
                                    | left; apply Hd1; now right | now right].
Qed.

(** A successful [match] defines every group of [sets r], and each group
    holds a text that [Q] allows. *)
Lemma match_sound Q r :
  groups_ok Q r ->
  forall s m,
    match_ s r = Some m ->
    forall i, (i <> 0)%nat ->
      (forall x, m !! i = Some x -> Q i x)
      /\ (In i (sets r) -> exists x, m !! i = Some x /\ Q i x).
Proof.
  intros Hok.
  assert (Hhere : forall s m, matchHere r s = Some m ->
    forall i, (i <> 0)%nat ->
      (forall x, m !! i = Some x -> Q i x)
      /\ (In i (sets r) -> exists x, m !! i = Some x /\ Q i x)).
  { intros s m H i Hi. unfold matchHere in H.
    apply (run_sound Q r Hok) in H.
    destruct H as (pre & rest & caps' & _ & _ & Hk & Hc & Hd).
    inversion Hk; subst m.
    assert (Hall : forall x, <[0%nat := consumed s rest]> caps' !! i = Some x
                             -> Q i x).
    { intros x Hx. rewrite lookup_insert_ne in Hx by congruence.
      apply (Hc ltac:(intros j y Hj; now rewrite lookup_empty in Hj) _ _ Hx). }
    split; [exact Hall |].
    intros Hin. destruct (Hd i (or_intror Hin)) as [x Hx].
    exists x. rewrite lookup_insert_ne by congruence. split; [assumption |].
    apply Hall. now rewrite lookup_insert_ne by congruence. }
  induction s as [| c s IH]; intros m H; simpl in H.
  - destruct (matchHere r []) eqn:Hm; [| discriminate].
    inversion H; subst. eauto.
  - destruct (matchHere r (c :: s)) eqn:Hm.
    + inversion H; subst. eauto.
    + eauto.
Qed.

(** *** The groups of the two time patterns *)

Lemma hms_groups_ok (l : str) : groups_ok hmsQ (Chars l ⋅ FFMPEG.hms).
Proof.
  assert (Hd : forall s, lang FFMPEG.digits s -> digit1 s)
    by (intros s H; exact H).
  assert (Hdec : forall s,
    lang (FFMPEG.digits ⋅ Opt (FFMPEG.G 4 (FFMPEG.chars "." ⋅ FFMPEG.digits))) s
    -> decimal s).
  { intros s (a & b & -> & Ha & Hb). exists a. split; [exact Ha |].
    destruct Hb as [-> | (x & y & -> & Hx & Hy)].
    - left. now rewrite app_nil_r.
    - right. exists y. split; [exact Hy |]. simpl in Hx. now subst x. }
  simpl in *.
  repeat match goal with
         | |- _ /\ _ => split
         | |- True => exact I
         end; try assumption.
  intros; exact I.
Qed.

(** The three groups of a duration or time match always parse. *)
Lemma hms_parse (l : str) data m :
  match_ data (Chars l ⋅ FFMPEG.hms) = Some m ->
  negb (isNaN (parseInt (at_ m 1))) && negb (isNaN (parseInt (at_ m 2)))
  && negb (isNaN (parseFloat (at_ m 3))) = true.
Proof.
  intros H. pose proof (match_sound hmsQ _ (hms_groups_ok l) _ _ H) as Hm.
  destruct (Hm 1%nat ltac:(lia)) as [_ H1].
  destruct (Hm 2%nat ltac:(lia)) as [_ H2].
  destruct (Hm 3%nat ltac:(lia)) as [_ H3].
  destruct H1 as (x1 & E1 & Q1); [simpl; tauto |].
  destruct H2 as (x2 & E2 & Q2); [simpl; tauto |].
  destruct H3 as (x3 & E3 & Q3); [simpl; tauto |].
  unfold at_. rewrite E1, E2, E3. simpl.
  now rewrite (parseInt_digits _ Q1), (parseInt_digits _ Q2),
    (parseFloat_decimal _ Q3).
Qed.

End JS_facts.

(** ** The progress object *)

Arguments put : simpl never.
Arguments deref : simpl never.

Lemma deref_put p w : deref (put p w) = p.
Proof. unfold deref, put; simpl. apply lookup_total_insert_eq. Qed.

Lemma put_put p q w : put q (put p w) = put q w.
Proof. unfold put; simpl. f_equal. apply insert_insert_eq. Qed.

Lemma put_deref w : wf w -> put (deref w) w = w.
Proof.
  intros [p Hp]. destruct w as [t s c]. unfold put, deref in *; simpl in *.
  f_equal. apply insert_id. now rewrite lookup_total_alt, Hp.
Qed.

Lemma wf_put p w : wf (put p w).
Proof. unfold wf, put; simpl. rewrite lookup_insert_eq. eauto. Qed.

Lemma this_put p w : this (put p w) = this w.
Proof. reflexivity. Qed.

Lemma children_put p w : children (put p w) = children w.
Proof. reflexivity. Qed.

Lemma wf_constructor a e : wf (constructor a e).
Proof. unfold wf; simpl. rewrite lookup_singleton_eq. eauto. Qed.

Lemma assign_progress_put f w :
  assign_progress f w = (tt, put (f (deref w)) w, []).
Proof. reflexivity. Qed.

(** ** What [onStderrData] does to the progress object *)

Lemma eta_run {A} (x : A * World * list effect) :
  (let '(b, w2, e2) := x in (b, w2, e2)) = x.
Proof. now destruct x as [[? ?] ?]. Qed.

Lemma bind_put' {B} (m : M unit) (k : unit -> M B) p q w r :
  m (put p w) = (tt, put q w, []) -> k tt (put q w) = r ->
  bind m k (put p w) = r.
Proof.
  intros Hm Hk. unfold bind. rewrite Hm, Hk. destruct r as [[b w2] e].
  reflexivity.
Qed.

Lemma progress_put p w :
  progress (put p w) = (fresh (dom (store (put p w))), copied p (put p w), []).
Proof.
  unfold progress, bind, progress_, new. now rewrite deref_put.
Qed.

(** One statement of a sequence, which turns the progress object [P]
    into [F P]. *)
Ltac step_put F :=
  match goal with
  | |- bind _ _ (put ?P ?W) = _ => apply (bind_put' _ _ P (F P) W)
  end.

Ltac on_match_put :=
  match goal with
  | |- _ (put ?P _) = _ => generalize P; intros ?
  end;
  match goal with
  | |- context [JS.match_ ?d ?r] => destruct (JS.match_ d r)
  end;
  [now rewrite assign_progress_put, deref_put, put_put | reflexivity].

Ltac run_put :=
  repeat (rewrite ?assign_progress_put, ?deref_put, ?put_put;
          unfold bind, when, progress_, ret; simpl).

Lemma onStderrData_put data p w :
  onStderrData data (put p w)
  = let p' := parse data p in
    match duration p' with
    | Some _ =>
        (tt, copied p' (put p' w),
         [Emit_progress (fresh (dom (store (put p' w))))])
    | None => (tt, put p' w, [])
    end.
Proof.
  unfold onStderrData.
  (* duration discovery *)
  assert (Hd : forall k : unit -> M unit,
    bind (progress_ duration) (fun d => bind (when (bool_decide (d = None))
      match JS.match_ data re_duration with
      | Some durMatch =>
          let hours := JS.parseInt (JS.at_ durMatch 1) in
          let minutes := JS.parseInt (JS.at_ durMatch 2) in
          let seconds := JS.parseFloat (JS.at_ durMatch 3) in
          when (negb (JS.isNaN hours) && negb (JS.isNaN minutes)
                && negb (JS.isNaN seconds))
            (assign_progress
               (set_duration (Some (hms_seconds hours minutes seconds))))
      | None => ret tt
      end) k) (put p w)
    = k tt (put (discover data p) w)).
  { intros k. unfold discover. run_put.
    destruct (duration p) as [d |]; simpl.
    - now destruct (k tt (put p w)) as [[? ?] ?].
    - destruct (JS.match_ data re_duration) as [m |]; simpl.
      + destruct (negb _ && negb _ && negb _); run_put;
          now destruct (k tt _) as [[? ?] ?].
      + now destruct (k tt (put p w)) as [[? ?] ?]. }
  rewrite Hd. clear Hd. unfold parse. simpl.
  set (p1 := discover data p).
  unfold bind at 1. unfold progress_ at 1. rewrite deref_put.
  destruct (duration p1) as [d |] eqn:Hdur; simpl.
  2: { now rewrite Hdur. }
  assert (Ht : duration (track data p1) = Some d).
  { unfold track, track_speed, track_bitrate, track_time, track_size,
      track_q, track_fps, track_frame.
    repeat (destruct (JS.match_ data _); simpl); try assumption;
      repeat (match goal with |- context [if ?b then _ else _] => destruct b end;
              simpl); assumption. }
  rewrite Ht.
  rewrite eta_run.
  step_put (track_frame data); [unfold track_frame; on_match_put |].
  step_put (track_fps data); [unfold track_fps; on_match_put |].
  step_put (track_q data); [unfold track_q; on_match_put |].
  step_put (track_size data); [unfold track_size; on_match_put |].
  step_put (track_time data).
  { match goal with |- _ (put ?P w) = _ => generalize P; intros q end.
    unfold track_time. destruct (JS.match_ data re_time) as [m |];
      [| reflexivity].
    cbv zeta. unfold when.
    destruct (negb _ && negb _ && negb _); [| reflexivity].
    unfold bind, progress_.
    rewrite assign_progress_put, !deref_put, put_put.
    destruct (JS.gt _ _); [| reflexivity].
    now rewrite assign_progress_put, !deref_put, put_put. }
  step_put (track_bitrate data); [unfold track_bitrate; on_match_put |].
  step_put (track_speed data); [unfold track_speed; on_match_put |].
  unfold bind. rewrite progress_put. reflexivity.
Qed.

Lemma onStderrData_spec data w :
  wf w ->
  onStderrData data w
  = let p' := parse data (deref w) in
    match duration p' with
    | Some _ =>
        (tt, copied p' (put p' w),
         [Emit_progress (fresh (dom (store (put p' w))))])
    | None => (tt, put p' w, [])
    end.
Proof.
  intros Hw. rewrite <- (put_deref w Hw) at 1. apply onStderrData_put.
Qed.

(** ** The listeners and methods, step by step *)

Lemma on_stderr_data_eq data w :
  on_stderr_data data w
  = let w1 := update (set_lastStderr (appended (lastStderr (this w)) data)) w in
    let '(u, w2, es) := onStderrData data w1 in
    (u, w2, Emit_stderr data :: es).
Proof.
  unfold on_stderr_data, appended, bind, effect_, assign, get, when, update.
  destruct w as [t s c]; simpl.
  destruct t as [a ch l pr k x]; simpl.
  destruct (Z.of_nat (length (l ++ data)) >? MAX_STDERR_LENGTH); simpl;
    unfold set_lastStderr; simpl;
    match goal with
    | |- context [onStderrData ?d ?w] =>
        destruct (onStderrData d w) as [[? ?] ?]
    end; reflexivity.
Qed.

Lemma start_busy sp w :
  child (this w) <> None ->
  start sp w
  = (Returned (err {| code := -1;
                      message := lit "FFMPEG process already started" |}),
     w, []).
Proof.
  intros H. unfold start, bind, processing, get, ret; simpl.
  rewrite bool_decide_eq_true_2 by assumption. reflexivity.
Qed.

Lemma start_idle sp w :
  child (this w) = None ->
  start sp w
  = let w1 := restarted w in
    match sp with
    | Thrown e =>
        (Returned (err {| code := -1; message := e |}), w1,
         [Spawn (execPath (this w)) (args (this w))])
    | Spawned =>
        let c := length (children w) in
        (Pending c,
         {| this := set_child (Some c) (this w1);
            store := store w1;
            children := children w ++ [listening] |},
         [Spawn (execPath (this w)) (args (this w))])
    end.
Proof.
  intros H. unfold start, bind, processing, get, ret; simpl.
  rewrite H; simpl. destruct sp; simpl; [| reflexivity].
  unfold set_children; simpl. f_equal. f_equal. f_equal.
  assert (Hl : forall f g (l : list ChildProcess) x,
             alter f (length l) (alter g (length l) (l ++ [x]))
             = l ++ [f (g x)]).
  { intros f g l x. rewrite list_alter_alter_eq, alter_app_r_alt by lia.
    now rewrite Nat.sub_diag. }
  apply Hl.
Qed.

Lemma stop_eq signal accepted w :
  stop signal accepted w
  = match child (this w) with
    | Some ch =>
        if _killed (this w) then (false, w, [])
        else if accepted
             then (true, update (set__killed true) w, [Kill ch signal])
             else (false, w, [Kill ch signal])
    | None => (false, w, [])
    end.
Proof.
  unfold stop, bind, get, ret, effect_, assign, update; simpl.
  destruct (child (this w)); [| reflexivity].
  destruct (_killed (this w)); simpl; [reflexivity |].
  destruct accepted; reflexivity.
Qed.

Lemma on_close_eq c code w :
  on_close c code w
  = let r := close_result code (lastStderr (this w)) in
    (tt, resolved c r (update (set_child None) w), [Resolve c r]).
Proof.
  unfold on_close, bind, assign, get, resolve, alter_child, effect_,
    close_result, resolved, update; simpl.
  destruct code as [[| z | z] |]; reflexivity.
Qed.

Lemma on_error_eq c msg w :
  on_error c msg w
  = let r := err {| code := -1; message := msg |} in
    (tt, resolved c r (update (set_child None) w), [Resolve c r]).
Proof. reflexivity. Qed.

Lemma deliver_eq ev w :
  deliver ev w
  = match ev with
    | Stdout_data c data =>
        if bool_decide (c < length (children w))%nat
        then (tt, w, [Emit_stdout data]) else (tt, w, [])
    | Stderr_data c data =>
        if bool_decide (c < length (children w))%nat
        then on_stderr_data data w else (tt, w, [])
    | Close c code =>
        if default false (closeListener <$> children w !! c)
        then on_close c code (close_fired c w) else (tt, w, [])
    | Error c msg =>
        if default false (errorListener <$> children w !! c)
        then on_error c msg (error_fired c w) else (tt, w, [])
    end.
Proof.
  unfold deliver, get_children, bind, when, ret. destruct ev as [c d | c d | c k | c m].
  - destruct (bool_decide _); reflexivity.
  - destruct (bool_decide _); [| reflexivity].
    now destruct (on_stderr_data d w) as [[? ?] ?].
  - destruct (default false _); [| reflexivity].
    unfold alter_child. rewrite !on_close_eq. reflexivity.
  - destruct (default false _); reflexivity.
Qed.

(** ** Invariants of the worlds an instance can be in *)

Lemma discover_inv data p : progress_inv p -> progress_inv (discover data p).
Proof.
  unfold discover, progress_inv. destruct (duration p) as [d |] eqn:Hd.
  - now rewrite Hd.
  - intros ->. destruct (JS.match_ data re_duration); [| reflexivity].
    cbv zeta. destruct (negb _ && negb _ && negb _); simpl; auto.
Qed.

Lemma track_time_inv data p :
  duration p <> None -> progress_inv p ->
  progress_inv (track_time data p) /\ duration (track_time data p) = duration p.
Proof.
  unfold track_time, progress_inv. intros Hd Hp.
  destruct (duration p) as [d |] eqn:E; [| congruence].
  destruct (JS.match_ data re_time); [| now rewrite E].
  cbv zeta. destruct (negb _ && negb _ && negb _); [| now rewrite E].
  simpl. rewrite E. simpl.
  destruct (JS.gt d #0) eqn:G; simpl; rewrite E; auto.
  destruct Hp as [Hp | Hp]; [auto | discriminate].
Qed.

(** The statements that set one field leave duration and percent alone. *)
Ltac track_one :=
  match goal with
  | |- context [JS.match_ ?d ?r] => destruct (JS.match_ d r)
  end; simpl; auto.

Lemma track_inv data p :
  duration p <> None -> progress_inv p ->
  progress_inv (track data p) /\ duration (track data p) = duration p.
Proof.
  intros Hd Hp. unfold track.
  assert (H4 : let q := track_size data (track_q data (track_fps data
                          (track_frame data p))) in
               progress_inv q /\ duration q = duration p).
  { unfold progress_inv, track_size, track_q, track_fps, track_frame in *.
    destruct (duration p) eqn:E; [| congruence].
    repeat track_one; rewrite E; auto. }
  cbv zeta in H4. destruct H4 as [H4 E4].
  destruct (track_time_inv data _ ltac:(now rewrite E4) H4) as [H5 E5].
  rewrite E4 in E5. revert H5 E5.
  generalize (track_time data (track_size data (track_q data (track_fps data
    (track_frame data p))))). intros q H5 E5.
  unfold progress_inv, track_speed, track_bitrate in *.
  destruct (duration p) eqn:E; [| congruence].
  repeat track_one; rewrite E5 in *; auto.
Qed.

Lemma parse_inv data p : progress_inv p -> progress_inv (parse data p).
Proof.
  intros Hp. apply (discover_inv data) in Hp. unfold parse. cbv zeta.
  destruct (duration (discover data p)) eqn:E; [| exact Hp].
  apply track_inv; [congruence | exact Hp].
Qed.

Lemma parse_duration data p d :
  duration p = Some d -> duration (parse data p) = Some d.
Proof.
  intros Hd. unfold parse, discover. rewrite Hd. cbv zeta. rewrite Hd.
  unfold track, track_speed, track_bitrate, track_time, track_size, track_q,
    track_fps, track_frame.
  repeat (match goal with
          | |- context [JS.match_ ?d ?r] => destruct (JS.match_ d r)
          | |- context [if ?b then _ else _] => destruct b
          end; simpl); assumption.
Qed.

Lemma exec_step a w :
  exec (step a) w
  = match a with
    | Call_start sp => exec (start sp) w
    | Call_stop signal accepted => exec (stop signal accepted) w
    | Call_progress => exec progress w
    | Deliver ev => exec (deliver ev) w
    end.
Proof.
  destruct a as [sp | sg acc | | ev]; unfold step, exec, bind, ret; simpl.
  - now destruct (start sp w) as [[? ?] ?].
  - now destruct (stop sg acc w) as [[? ?] ?].
  - reflexivity.
  - reflexivity.
Qed.

Lemma progress_inv_empty : progress_inv EmptyProgress.
Proof. reflexivity. Qed.

Lemma deref_lookup w p :
  store w !! _progress (this w) = Some p -> deref w = p.
Proof. intros H. unfold deref. now rewrite lookup_total_alt, H. Qed.

Lemma invariant_deref w : invariant w -> progress_inv (deref w).
Proof.
  intros [[p Hp] Hs _ _]. rewrite (deref_lookup _ _ Hp). eapply Hs, Hp.
Qed.

Lemma invariant_constructor a e : invariant (constructor a e).
Proof.
  split; simpl.
  - apply wf_constructor.
  - intros r p H. apply lookup_singleton_Some in H as [_ <-].
    apply progress_inv_empty.
  - constructor.
  - discriminate.
Qed.

(** Replacing the progress object, or adding an object to the store. *)
Lemma invariant_put p w : invariant w -> progress_inv p -> invariant (put p w).
Proof.
  intros [Hw Hs Hc Hch] Hp. split; try assumption.
  - apply wf_put.
  - intros r q H. unfold put in H; simpl in H.
    apply lookup_insert_Some in H as [[_ <-] | [_ H]]; eauto.
Qed.

Lemma invariant_copied p w :
  invariant w -> progress_inv p -> invariant (copied p w).
Proof.
  intros [Hw Hs Hc Hch] Hp. split; try assumption.
  - unfold wf, copied; simpl. apply lookup_insert_is_Some'. now right.
  - intros r q H. unfold copied in H; simpl in H.
    apply lookup_insert_Some in H as [[_ <-] | [_ H]]; eauto.
Qed.

(** Updating fields other than [_progress], when [child] stays or is
    cleared. *)
Lemma invariant_update upd w :
  invariant w ->
  (forall f, _progress (upd f) = _progress f) ->
  (forall f, child (upd f) = child f \/ child (upd f) = None) ->
  invariant (update upd w).
Proof.
  intros [Hw Hs Hc Hch] Hp Hk. split; simpl; try assumption.
  - unfold wf, update; simpl. now rewrite Hp.
  - intros c H. destruct (Hk (this w)) as [E | E]; rewrite E in H;
      [auto | discriminate].
Qed.

Lemma invariant_children f c w :
  invariant w ->
  (forall ch, child_inv ch -> child_inv (f ch)) ->
  invariant (set_children (alter f c (children w)) w).
Proof.
  intros [Hw Hs Hc Hch] Hf. split; simpl; try assumption.
  - apply Forall_alter; auto.
  - intros k H. rewrite length_alter. auto.
Qed.

Lemma invariant_restarted w : invariant w -> invariant (restarted w).
Proof.
  intros [Hw Hs Hc Hch]. split; simpl; try assumption.
  - unfold wf; simpl. rewrite lookup_insert_eq. eauto.
  - intros r q H.
    apply lookup_insert_Some in H as [[_ <-] | [_ H]];
      [apply progress_inv_empty | eauto].
Qed.

Lemma invariant_step a w : invariant w -> invariant (exec (step a) w).
Proof.
  intros Hw. rewrite exec_step. destruct a as [sp | sg acc | | ev].
  - (* start *)
    destruct (child (this w)) as [c |] eqn:Hc.
    + unfold exec. rewrite start_busy by congruence. exact Hw.
    + unfold exec. rewrite start_idle by assumption. cbv zeta.
      pose proof (invariant_restarted w Hw) as [Hw1 Hs1 Hc1 Hch1].
      destruct sp; simpl; [| now split].
      split; simpl; try assumption.
      * apply Forall_app. split; [assumption |].
        constructor; [| constructor]. intros _. now split.
      * intros c H. inversion H. rewrite length_app. simpl. lia.
  - (* stop *)
    unfold exec. rewrite stop_eq.
    destruct (child (this w)); [| exact Hw].
    destruct (_killed (this w)); [exact Hw |].
    destruct acc; [| exact Hw].
    apply invariant_update; auto.
  - (* progress *)
    unfold exec, progress, bind, progress_, new; simpl.
    apply (invariant_copied (deref w) w Hw), invariant_deref, Hw.
  - (* events *)
    unfold exec. rewrite deliver_eq. destruct ev as [c d | c d | c k | c m].
    + destruct (bool_decide _); exact Hw.
    + destruct (bool_decide _); [| exact Hw].
      rewrite on_stderr_data_eq. cbv zeta.
      set (w1 := update _ w).
      assert (Hw1 : invariant w1) by (apply invariant_update; auto).
      rewrite onStderrData_spec by apply Hw1. cbv zeta.
      assert (Hp : progress_inv (parse d (deref w1)))
        by apply parse_inv, invariant_deref, Hw1.
      destruct (duration (parse d (deref w1))); simpl.
      * apply invariant_copied; [apply invariant_put |]; assumption.
      * apply invariant_put; assumption.
    + destruct (default false _); [| exact Hw].
      rewrite on_close_eq. cbv zeta. simpl.
      unfold resolved, close_fired, error_fired, set_children, update; simpl.
      rewrite list_alter_alter_eq.
      apply (invariant_children _ c (update (set_child None) w)).
      * apply invariant_update; auto.
      * intros ch H E. simpl in E. destruct (settled ch); discriminate.
    + destruct (default false _); [| exact Hw].
      rewrite on_error_eq. cbv zeta. simpl.
      unfold resolved, close_fired, error_fired, set_children, update; simpl.
      rewrite list_alter_alter_eq.
      apply (invariant_children _ c (update (set_child None) w)).
      * apply invariant_update; auto.
      * intros ch H E. simpl in E. destruct (settled ch); discriminate.
Qed.

Lemma reachable_invariant w : reachable w -> invariant w.
Proof.
  induction 1; [apply invariant_constructor | now apply invariant_step].
Qed.

(** ** One diagnostic chunk *)

Lemma deref_update upd w :
  (forall f, _progress (upd f) = _progress f) -> deref (update upd w) = deref w.
Proof. intros H. unfold deref, update; simpl. now rewrite H. Qed.

Lemma fresh_insert_ne (m : gmap ref FFMPEGProgress) k v :
  fresh (dom (<[k := v]> m)) <> k.
Proof.
  intros H. pose proof (is_fresh (dom (<[k := v]> m))) as Hf.
  rewrite H in Hf. apply Hf. rewrite dom_insert_L. set_solver.
Qed.


(** The whole effect of a chunk on the diagnostic channel of a spawned
    child. *)
Lemma deliver_stderr_spec c data w :
  wf w -> (c < length (children w))%nat ->
  deliver (Stderr_data c data) w
  = let w1 := update (set_lastStderr (appended (lastStderr (this w)) data)) w in
    let p' := parse data (deref w) in
    match duration p' with
    | Some _ =>
        (tt, copied p' (put p' w1),
         [Emit_stderr data; Emit_progress (fresh (dom (store (put p' w1))))])
    | None => (tt, put p' w1, [Emit_stderr data])
    end.
Proof.
  intros Hw Hc. rewrite deliver_eq, bool_decide_eq_true_2 by assumption.
  rewrite on_stderr_data_eq. cbv zeta.
  rewrite onStderrData_spec by exact Hw. cbv zeta.
  rewrite deref_update by reflexivity.
  now destruct (duration (parse data (deref w))).
Qed.

Lemma deliver_stderr_deref c data w :
  wf w -> (c < length (children w))%nat ->
  deref (exec (deliver (Stderr_data c data)) w) = parse data (deref w).
Proof.
  intros Hw Hc. unfold exec. rewrite deliver_stderr_spec by assumption.
  cbv zeta. destruct (duration (parse data (deref w))) eqn:E; simpl.
  - unfold deref, copied; simpl. rewrite lookup_total_insert_ne.
    + apply lookup_total_insert_eq.
    + apply fresh_insert_ne.
  - apply deref_put.
Qed.

(** ** One action, as a function on worlds *)

Lemma exec_step_next a w : wf w -> exec (step a) w = next a w.
Proof.
  intros Hw. rewrite exec_step. destruct a as [sp | sg acc | | ev]; simpl.
  - unfold exec. destruct (child (this w)) eqn:Hc.
    + now rewrite start_busy by congruence.
    + rewrite start_idle by assumption. now destruct sp.
  - unfold exec. rewrite stop_eq. destruct (child (this w)); [| reflexivity].
    destruct (_killed (this w)); [reflexivity |]. now destruct acc.
  - reflexivity.
  - destruct ev as [c d | c d | c k | c m]; unfold exec.
    + rewrite deliver_eq. now destruct (bool_decide _).
    + destruct (bool_decide (c < length (children w))%nat) eqn:Hc.
      * apply bool_decide_eq_true_1 in Hc.
        rewrite deliver_stderr_spec by assumption. cbv zeta.
        now destruct (duration (parse d (deref w))).
      * now rewrite deliver_eq, Hc.
    + rewrite deliver_eq. destruct (default false _); [| reflexivity].
      now rewrite on_close_eq.
    + rewrite deliver_eq. destruct (default false _); [| reflexivity].
      now rewrite on_error_eq.
Qed.

Lemma reachable_wf w : reachable w -> wf w.
Proof. intros H. apply reachable_invariant, H. Qed.

Lemma reachable_steps acts : forall w, reachable w -> reachable (steps acts w).
Proof.
  induction acts as [| a acts IH]; intros w H; simpl; [exact H |].
  apply IH. now constructor.
Qed.

(** *** The killed flag *)

(** The flag after an action: set before, or set by a [stop] that
    returned [true]. *)
Lemma killed_next a w :
  _killed (this (next a w))
  = _killed (this w)
    || match a with
       | Call_stop signal accepted => result (stop signal accepted) w
       | _ => false
       end.
Proof.
  destruct a as [sp | sg acc | | [c d | c d | c k | c m]]; simpl;
    rewrite ?orb_false_r; try reflexivity.
  - destruct (child (this w)); [reflexivity |]. now destruct sp.
  - unfold result. rewrite stop_eq.
    destruct (child (this w)); simpl; rewrite ?orb_false_r; try reflexivity.
    destruct (_killed (this w)) eqn:Hk; simpl; [exact Hk |].
    destruct acc; simpl; [reflexivity | exact Hk].
  - destruct (bool_decide _); [| reflexivity]. cbv zeta.
    now destruct (duration _).
  - now destruct (default false _).
  - now destruct (default false _).
Qed.

Lemma killed_sticky acts : forall w,
  reachable w -> _killed (this w) = true ->
  _killed (this (steps acts w)) = true.
Proof.
  induction acts as [| a acts IH]; intros w Hr Hk; simpl; [exact Hk |].
  apply IH; [now constructor |].
  rewrite exec_step_next by now apply reachable_wf.
  now rewrite killed_next, Hk.
Qed.

(** ** The concrete worlds are reachable *)

Lemma reachable_idle : reachable idle.
Proof. apply reachable_new. Qed.

Lemma reachable_running : reachable running.
Proof. apply reachable_step, reachable_idle. Qed.

(** * The claims *)

(** C7: [start] called while the instance is processing returns the
    "already started" error at once and changes no state: the world after
    the call (process handle, trailing error buffer, progress object and
    store, killed flag, child listeners) is the world before it, and
    nothing is emitted, spawned or signalled. *)
Theorem C7_start_while_processing (sp : spawn_outcome) (w : World) :
  result processing w = true ->
  start sp w
  = (Returned (err {| code := -1;
                      message := lit "FFMPEG process already started" |}),
     w, []).
Proof.
  intros H. apply start_busy. unfold result, processing, bind, get, ret in H.
  simpl in H. now apply bool_decide_eq_true_1 in H.
Qed.

Lemma C7_start_while_processing_witness :
  result processing running = true
  /\ start Spawned running
     = (Returned (err {| code := -1;
                         message := lit "FFMPEG process already started" |}),
        running, []).
Proof.
  split; [reflexivity |].
  apply (C7_start_while_processing Spawned running). reflexivity.
Defined.

(** C2: [stop] returns [true] only if there is a child process, the killed
    flag is not set and the runtime accepted the signal, and that call sets
    the killed flag; if the instance is not processing or is already marked
    killed it returns [false], sends no signal and changes nothing; so a
    second [stop] after a successful one returns [false] with the flag
    still set, and [stop] on a new instance returns [false] and leaves the
    flag unset. *)
Theorem C2_stop (signal : option str) (accepted : bool) (w : World) :
  (result (stop signal accepted) w = true ->
     (exists ch, child (this w) = Some ch
                 /\ effects (stop signal accepted) w = [Kill ch signal])
     /\ _killed (this w) = false /\ accepted = true
     /\ _killed (this (exec (stop signal accepted) w)) = true)
  /\ (result processing w = false \/ _killed (this w) = true ->
        stop signal accepted w = (false, w, []))
  /\ (result (stop signal accepted) w = true ->
        forall signal' accepted',
          let w1 := exec (stop signal accepted) w in
          stop signal' accepted' w1 = (false, w1, [])
          /\ _killed (this w1) = true)
  /\ (forall args execPath,
        stop signal accepted (constructor args execPath)
        = (false, constructor args execPath, [])
        /\ _killed (this (constructor args execPath)) = false).
Proof.
  unfold result, effects, exec. rewrite stop_eq.
  repeat split.
  - destruct (child (this w)) as [ch |]; [| discriminate].
    destruct (_killed (this w)); [discriminate |].
    destruct accepted; [| discriminate]. eauto.
  - destruct (child (this w)); [| discriminate].
    now destruct (_killed (this w)).
  - destruct (child (this w)); [| discriminate].
    destruct (_killed (this w)); [discriminate |]. now destruct accepted.
  - destruct (child (this w)); [| discriminate].
    destruct (_killed (this w)); [discriminate |].
    now destruct accepted.
  - intros [H | H].
    + unfold processing, bind, get, ret in H; simpl in H.
      apply bool_decide_eq_false_1 in H.
      destruct (child (this w)); [| reflexivity]. exfalso. apply H. discriminate.
    + rewrite H. now destruct (child (this w)).
  - rewrite stop_eq.
    destruct (child (this w)) eqn:Hc; [| discriminate].
    destruct (_killed (this w)) eqn:Hk; [discriminate |].
    destruct accepted; [| discriminate]. simpl. now rewrite Hc.
  - destruct (child (this w)) eqn:Hc; [| discriminate].
    destruct (_killed (this w)) eqn:Hk; [discriminate |].
    destruct accepted; [| discriminate]. reflexivity.
Qed.

Lemma C2_stop_witness :
  result (stop None true) running = true
  /\ _killed (this (exec (stop None true) running)) = true
  /\ stop None true (exec (stop None true) running)
     = (false, exec (stop None true) running, []).
Proof.
  destruct (C2_stop None true running) as (H1 & _ & H3 & _).
  split; [reflexivity |].
  split; [apply H1; reflexivity |].
  apply (H3 eq_refl None true).
Defined.

(** C10: the killed flag goes from unset to set exactly by a [stop] that
    returns [true].  When a child exists, the flag is unset and the runtime
    rejects the signal, [stop] sends the signal, returns [false] and changes
    nothing, so the flag stays unset and the next [stop] sends a signal
    again. *)
Theorem C10_killed_exactly_on_accepted_stop (w : World) :
  reachable w ->
  (forall a,
     _killed (this w) = false /\ _killed (this (exec (step a) w)) = true
     <-> exists signal accepted,
           a = Call_stop signal accepted
           /\ result (stop signal accepted) w = true)
  /\ (forall ch signal,
        child (this w) = Some ch -> _killed (this w) = false ->
        stop signal false w = (false, w, [Kill ch signal])
        /\ forall signal' accepted',
             effects (stop signal' accepted') (exec (stop signal false) w)
             = [Kill ch signal']
             /\ result (stop signal' accepted') (exec (stop signal false) w)
                = accepted').
Proof.
  intros Hr. split.
  - intros a. rewrite exec_step_next by now apply reachable_wf.
    rewrite killed_next. split.
    + intros [Hk H]. rewrite Hk in H. simpl in H.
      destruct a as [sp | sg acc | | ev]; try discriminate. eauto.
    + intros (sg & acc & -> & H). rewrite H, orb_true_r. split; [| reflexivity].
      unfold result in H. rewrite stop_eq in H.
      destruct (child (this w)); [| discriminate].
      now destruct (_killed (this w)).
  - intros ch sg Hc Hk.
    assert (E : stop sg false w = (false, w, [Kill ch sg]))
      by now rewrite stop_eq, Hc, Hk.
    split; [exact E |].
    intros sg' acc'. unfold effects, result, exec. rewrite E. simpl.
    rewrite stop_eq, Hc, Hk. now destruct acc'.
Qed.

Lemma C10_killed_exactly_on_accepted_stop_witness :
  stop (Some (lit "SIGINT")) false running
  = (false, running, [Kill 0%nat (Some (lit "SIGINT"))])
  /\ effects (stop None true) (exec (stop (Some (lit "SIGINT")) false) running)
     = [Kill 0%nat None].
Proof.
  destruct (C10_killed_exactly_on_accepted_stop running reachable_running)
    as [_ H].
  destruct (H 0%nat (Some (lit "SIGINT")) eq_refl eq_refl) as [H1 H2].
  split; [exact H1 |]. apply (H2 None true).
Defined.

(** C8: a [start] that finds the instance idle empties the trailing error
    buffer and makes [this._progress] an object with every field unknown,
    whatever happened to the instance before (so also on a second run);
    and once the killed flag is set, no sequence of calls and events
    unsets it. *)
Theorem C8_start_resets_killed_stays (w : World) :
  reachable w ->
  (forall sp,
     result processing w = false ->
     let w' := exec (start sp) w in
     lastStderr (this w') = [] /\ deref w' = EmptyProgress)
  /\ (forall acts,
        _killed (this w) = true -> _killed (this (steps acts w)) = true).
Proof.
  intros Hr. split.
  - intros sp Hp. unfold result, processing, bind, get, ret in Hp.
    simpl in Hp. apply bool_decide_eq_false_1 in Hp.
    assert (Hc : child (this w) = None).
    { destruct (child (this w)); [| reflexivity]. exfalso. apply Hp.
      discriminate. }
    unfold exec. rewrite start_idle by assumption. cbv zeta.
    destruct sp; simpl; (split; [reflexivity |]);
      unfold deref; simpl; apply lookup_total_insert_eq.
  - intros acts Hk. now apply killed_sticky.
Qed.

Lemma reachable_finished : reachable finished.
Proof. apply reachable_steps, reachable_running. Qed.

Lemma C8_start_resets_killed_stays_witness :
  lastStderr (this (exec (start Spawned) finished)) = []
  /\ deref (exec (start Spawned) finished) = EmptyProgress
  /\ _killed (this (steps [Call_start Spawned] finished)) = true.
Proof.
  destruct (C8_start_resets_killed_stays finished reachable_finished)
    as [H1 H2].
  destruct (H1 Spawned eq_refl) as [Ha Hb].
  split; [exact Ha |]. split; [exact Hb |].
  apply (H2 [Call_start Spawned]). reflexivity.
Defined.

(** *** Promises *)

Lemma promise_next a c r w :
  promise c w = Some r -> promise c (next a w) = Some r.
Proof.
  unfold promise. intros H.
  destruct (children w !! c) as [ch |] eqn:Hc; [| discriminate].
  simpl in H.
  assert (Halter : forall f : ChildProcess -> ChildProcess,
    (forall x, settled x = Some r -> settled (f x) = Some r) ->
    forall i, (alter f i (children w) !! c ≫= settled) = Some r).
  { intros f Hf i. rewrite list_lookup_alter. case_decide; subst.
    - rewrite Hc. simpl. auto.
    - rewrite Hc. simpl. auto. }
  destruct a as [sp | sg acc | | [k d | k d | k code | k m]]; simpl.
  - destruct (child (this w)); [now rewrite Hc |].
    destruct sp; simpl; [| now rewrite Hc].
    rewrite lookup_app_l by (eapply lookup_lt_Some, Hc). now rewrite Hc.
  - destruct (child (this w)); [| now rewrite Hc].
    destruct (_killed (this w)); [now rewrite Hc |].
    destruct acc; simpl; now rewrite Hc.
  - now rewrite Hc.
  - now rewrite Hc.
  - destruct (bool_decide _); [| now rewrite Hc]. cbv zeta.
    destruct (duration _); simpl; now rewrite Hc.
  - destruct (default false _); [| now rewrite Hc]. simpl.
    rewrite list_alter_alter_eq. apply Halter.
    intros x Hx. simpl. now rewrite Hx.
  - destruct (default false _); [| now rewrite Hc]. simpl.
    rewrite list_alter_alter_eq. apply Halter.
    intros x Hx. simpl. now rewrite Hx.
Qed.

Lemma promise_steps acts c r : forall w,
  reachable w -> promise c w = Some r -> promise c (steps acts w) = Some r.
Proof.
  induction acts as [| a acts IH]; intros w Hr H; simpl; [exact H |].
  apply IH; [now constructor |].
  rewrite exec_step_next by now apply reachable_wf.
  now apply promise_next.
Qed.

(** A pending promise has its two listeners. *)
Lemma pending_listeners w c ch :
  reachable w -> children w !! c = Some ch -> settled ch = None ->
  closeListener ch = true /\ errorListener ch = true.
Proof.
  intros Hr Hc Hs. apply reachable_invariant in Hr as [_ _ Hch _].
  rewrite Forall_lookup in Hch. now apply (Hch c ch Hc).
Qed.

Lemma close_resolves w c ch code :
  reachable w -> children w !! c = Some ch -> settled ch = None ->
  resolves_with (Close c code) c
    (close_result code (lastStderr (this w))) w.
Proof.
  intros Hr Hc Hs. destruct (pending_listeners w c ch Hr Hc Hs) as [Hl _].
  exists (update (set_child None) (close_fired c w)).
  assert (E : deliver (Close c code) w
              = resolve c (close_result code (lastStderr (this w)))
                  (update (set_child None) (close_fired c w))).
  { rewrite deliver_eq, Hc. simpl. rewrite Hl. now rewrite on_close_eq. }
  split; [reflexivity |]. split; [exact E |].
  unfold exec, result. rewrite E. unfold resolve, bind, alter_child, effect_.
  simpl. split; [| reflexivity].
  unfold promise. simpl. rewrite list_alter_alter_eq, list_lookup_alter_eq, Hc.
  simpl. now rewrite Hs.
Qed.

Lemma error_resolves w c ch msg :
  reachable w -> children w !! c = Some ch -> settled ch = None ->
  resolves_with (Error c msg) c (err {| code := -1; message := msg |}) w.
Proof.
  intros Hr Hc Hs. destruct (pending_listeners w c ch Hr Hc Hs) as [_ Hl].
  exists (update (set_child None) (error_fired c w)).
  assert (E : deliver (Error c msg) w
              = resolve c (err {| code := -1; message := msg |})
                  (update (set_child None) (error_fired c w))).
  { rewrite deliver_eq, Hc. simpl. now rewrite Hl. }
  split; [reflexivity |]. split; [exact E |].
  unfold exec, result. rewrite E. unfold resolve, bind, alter_child, effect_.
  simpl. split; [| reflexivity].
  unfold promise. simpl. rewrite list_alter_alter_eq, list_lookup_alter_eq, Hc.
  simpl. now rewrite Hs.
Qed.

(** C1: for a run whose promise is pending, the close listener resolves
    it with success for exit code 0, with a failure carrying the exit code
    and the trailing error buffer for another code, and with code -1 and
    the buffer when the code is [null]; the error listener resolves it with
    code -1 and the error's message.  Each of them clears the process handle
    before it calls [resolve], so [processing] is false from then on.  A
    settled promise keeps its value whatever happens next, and a [start]
    whose spawn throws returns code -1 with the thrown text, the instance
    not processing. *)
Theorem C1_start_resolution (w : World) :
  reachable w ->
  (forall c ch,
     children w !! c = Some ch -> settled ch = None ->
     resolves_with (Close c (Some 0)) c ok w
     /\ (forall n, n <> 0 ->
           resolves_with (Close c (Some n)) c
             (err {| code := n; message := lastStderr (this w) |}) w)
     /\ resolves_with (Close c None) c
          (err {| code := -1; message := lastStderr (this w) |}) w
     /\ (forall msg,
           resolves_with (Error c msg) c
             (err {| code := -1; message := msg |}) w))
  /\ (forall c r acts,
        promise c w = Some r -> promise c (steps acts w) = Some r)
  /\ (forall e,
        result processing w = false ->
        result (start (Thrown e)) w
        = Returned (err {| code := -1; message := e |})
        /\ result processing (exec (start (Thrown e)) w) = false).
Proof.
  intros Hr. split; [| split].
  - intros c ch Hc Hs. repeat split.
    + apply (close_resolves w c ch (Some 0) Hr Hc Hs).
    + intros n Hn. pose proof (close_resolves w c ch (Some n) Hr Hc Hs) as H.
      destruct n; [congruence | exact H | exact H].
    + apply (close_resolves w c ch None Hr Hc Hs).
    + intros msg. apply (error_resolves w c ch msg Hr Hc Hs).
  - intros c r acts H. now apply promise_steps.
  - intros e Hp. unfold result, processing, bind, get, ret in Hp.
    simpl in Hp. apply bool_decide_eq_false_1 in Hp.
    assert (Hc : child (this w) = None).
    { destruct (child (this w)); [| reflexivity]. exfalso. apply Hp.
      discriminate. }
    unfold result, exec. rewrite start_idle by assumption. simpl.
    split; [reflexivity |].
    unfold processing, bind, get, ret. simpl. rewrite Hc. reflexivity.
Qed.

Lemma C1_start_resolution_witness :
  resolves_with (Close 0 (Some 0)) 0 ok running
  /\ resolves_with (Close 0 None) 0
       (err {| code := -1; message := lastStderr (this running) |}) running.
Proof.
  destruct (C1_start_resolution running reachable_running) as [H _].
  destruct (H 0%nat listening eq_refl eq_refl) as (H1 & _ & H3 & _).
  split; assumption.
Defined.

(** *** Snapshots *)

(** An object of the store that [this._progress] does not refer to is
    never written again. *)
Lemma snapshot_next a w r p :
  wf w -> store w !! r = Some p -> r <> _progress (this w) ->
  store (next a w) !! r = Some p /\ r <> _progress (this (next a w)).
Proof.
  intros Hw Hr Hne.
  assert (Hfresh : forall m : gmap ref FFMPEGProgress,
             is_Some (m !! r) -> fresh (dom m) <> r).
  { intros m Hm E. apply (is_fresh (dom m)). rewrite E.
    now apply elem_of_dom. }
  assert (Hcopy : forall q w0, store w0 !! r = Some p ->
             store (copied q w0) !! r = Some p).
  { intros q w0 H. unfold copied; simpl.
    rewrite lookup_insert_ne; [exact H | apply Hfresh; eauto]. }
  assert (Hput : forall q w0, store w0 !! r = Some p ->
             r <> _progress (this w0) -> store (put q w0) !! r = Some p).
  { intros q w0 H Hn. unfold put; simpl.
    rewrite lookup_insert_ne; [exact H | congruence]. }
  destruct a as [sp | sg acc | | [c d | c d | c k | c m]]; simpl.
  - destruct (child (this w)); [now split |].
    assert (H1 : store (restarted w) !! r = Some p
                 /\ r <> _progress (this (restarted w))).
    { unfold restarted; simpl. split.
      - rewrite lookup_insert_ne; [exact Hr | apply Hfresh; eauto].
      - intros E. apply (Hfresh (store w)); eauto. }
    destruct sp; exact H1.
  - destruct (child (this w)); [| now split].
    destruct (_killed (this w)); [now split |]. destruct acc; now split.
  - split; [now apply Hcopy | exact Hne].
  - now split.
  - destruct (bool_decide _); [| now split]. cbv zeta.
    destruct (duration _); (split; [| exact Hne]).
    + apply Hcopy. now apply Hput.
    + now apply Hput.
  - destruct (default false _); now split.
  - destruct (default false _); now split.
Qed.

Lemma snapshot_steps acts r p : forall w,
  reachable w -> store w !! r = Some p -> r <> _progress (this w) ->
  store (steps acts w) !! r = Some p.
Proof.
  induction acts as [| a acts IH]; intros w Hw Hr Hne; [exact Hr |].
  change (steps (a :: acts) w) with (steps acts (exec (step a) w)).
  pose proof (reachable_wf w Hw) as Hwf.
  destruct (snapshot_next a w r p Hwf Hr Hne) as [H1 H2].
  rewrite <- exec_step_next in H1, H2 by assumption.
  apply IH; [now constructor | assumption | assumption].
Qed.



(** *** The trailing error buffer *)

Lemma appended_trailing buf data :
  appended buf data = trailing (Z.to_nat MAX_STDERR_LENGTH) (buf ++ data).
Proof.
  unfold appended, trailing, JS.slice. cbv zeta.
  set (l := buf ++ data).
  destruct (Z.of_nat (length l) >? MAX_STDERR_LENGTH) eqn:E.
  - replace (- MAX_STDERR_LENGTH <? 0) with true by reflexivity.
    f_equal. apply Z.gtb_lt in E. unfold MAX_STDERR_LENGTH in *. lia.
  - assert (H : (length l - Z.to_nat MAX_STDERR_LENGTH = 0)%nat).
    { rewrite Z.gtb_ltb in E. apply Z.ltb_ge in E.
      unfold MAX_STDERR_LENGTH in *. lia. }
    now rewrite H.
Qed.

Lemma trailing_app n all data :
  trailing n (trailing n all ++ data) = trailing n (all ++ data).
Proof.
  unfold trailing.
  rewrite <- (drop_app_le all data (length all - n)) by lia.
  rewrite drop_drop. f_equal. rewrite length_drop, !length_app. lia.
Qed.

Lemma length_trailing n s : (length (trailing n s) <= n)%nat.
Proof. unfold trailing. rewrite length_drop. lia. Qed.

Lemma buffer_next a w :
  is_start a = false ->
  length (children (next a w)) = length (children w)
  /\ lastStderr (this (next a w))
     = match a with
       | Deliver (Stderr_data c data) =>
           if bool_decide (c < length (children w))%nat
           then appended (lastStderr (this w)) data
           else lastStderr (this w)
       | _ => lastStderr (this w)
       end.
Proof.
  intros Hs.
  destruct a as [sp | sg acc | | [c d | c d | c k | c m]]; simpl;
    try discriminate; try (split; reflexivity).
  - destruct (child (this w)); [| split; reflexivity].
    destruct (_killed (this w)); [split; reflexivity |].
    destruct acc; split; reflexivity.
  - destruct (bool_decide _); [| split; reflexivity]. cbv zeta.
    destruct (duration _); split; reflexivity.
  - destruct (default false _); [| split; reflexivity]. simpl.
    rewrite !length_alter. split; reflexivity.
  - destruct (default false _); [| split; reflexivity]. simpl.
    rewrite !length_alter. split; reflexivity.
Qed.

Lemma buffer_steps acts : forall w all,
  reachable w ->
  Forall (fun a => is_start a = false) acts ->
  lastStderr (this w) = trailing (Z.to_nat MAX_STDERR_LENGTH) all ->
  lastStderr (this (steps acts w))
  = trailing (Z.to_nat MAX_STDERR_LENGTH)
      (all ++ concat (stderr_chunks (length (children w)) acts)).
Proof.
  induction acts as [| a acts IH]; intros w all Hr Hf Hb.
  - simpl. now rewrite app_nil_r.
  - inversion Hf as [| ? ? Ha Hf']; subst.
    change (steps (a :: acts) w) with (steps acts (exec (step a) w)).
    rewrite exec_step_next by now apply reachable_wf.
    destruct (buffer_next a w Ha) as [Hlen Hbuf].
    assert (Hr' : reachable (next a w)).
    { rewrite <- exec_step_next by now apply reachable_wf. now constructor. }
    set (w' := next a w) in *. specialize (IH w'). rewrite Hlen in IH.
    set (n := length (children w)) in *.
    assert (Hchunks :
      stderr_chunks n (a :: acts)
      = match a with
        | Deliver (Stderr_data c d) =>
            if bool_decide (c < n)%nat
            then d :: stderr_chunks n acts else stderr_chunks n acts
        | _ => stderr_chunks n acts
        end).
    { destruct a as [sp | sg acc | | [c d | c d | c k | c m]];
        try reflexivity.
      unfold stderr_chunks; simpl. now destruct (bool_decide _). }
    rewrite Hchunks.
    destruct a as [sp | sg acc | | [c d | c d | c k | c m]];
      try discriminate;
      try (apply IH; [assumption | assumption | now rewrite Hbuf]).
    destruct (bool_decide (c < n)%nat).
    + simpl. rewrite app_assoc. apply IH; [assumption | assumption |].
      rewrite Hbuf, Hb, appended_trailing. apply trailing_app.
    + apply IH; [assumption | assumption | now rewrite Hbuf].
Qed.

Lemma stderr_chunks_run n acts :
  Forall (fun a => forall c d, a = Deliver (Stderr_data c d) -> (n <= c)%nat)
    acts ->
  stderr_chunks (S n) acts = run_chunks n acts.
Proof.
  induction 1 as [| a acts Ha _ IH]; [reflexivity |].
  unfold stderr_chunks, run_chunks in *.
  destruct a as [sp | sg acc | | [c d | c d | c k | c m]]; simpl;
    try exact IH.
  pose proof (Ha c d eq_refl) as Hc.
  destruct (decide (c = n)) as [-> | Hne].
  - rewrite !bool_decide_eq_true_2 by lia. simpl. now f_equal.
  - rewrite !bool_decide_eq_false_2 by lia. exact IH.
Qed.

(** C6: [start] on an idle instance empties the trailing error
    buffer, and after any calls and events that follow it (up to the next
    [start]) the buffer is the last 32000 code units of the concatenation
    of the chunks delivered since then on the diagnostic channel of any
    child the instance has spawned, the child of an earlier run included,
    all of it when it is shorter; so it never holds more than 32000 code
    units.  When no earlier child delivers a chunk in that time, these are
    the chunks of the child this [start] spawned. *)
Theorem C6_trailing_error_buffer (w : World) (sp : spawn_outcome)
    (acts : list action) :
  reachable w -> result processing w = false ->
  Forall (fun a => is_start a = false) acts ->
  let w1 := exec (start sp) w in
  let buf := lastStderr (this (steps acts w1)) in
  lastStderr (this w1) = []
  /\ buf = trailing (Z.to_nat MAX_STDERR_LENGTH)
             (concat (stderr_chunks (length (children w1)) acts))
  /\ Z.of_nat (length buf) <= MAX_STDERR_LENGTH
  /\ (sp = Spawned ->
      Forall (fun a => forall c d, a = Deliver (Stderr_data c d) ->
                                   (length (children w) <= c)%nat) acts ->
      result (start sp) w = Pending (length (children w))
      /\ buf = trailing (Z.to_nat MAX_STDERR_LENGTH)
                 (concat (run_chunks (length (children w)) acts))).
Proof.
  intros Hr Hp Hf. cbv zeta.
  assert (Hc : child (this w) = None).
  { unfold result, processing, bind, get, ret in Hp. simpl in Hp.
    apply bool_decide_eq_false_1 in Hp.
    destruct (child (this w)); [| reflexivity]. exfalso. apply Hp.
    discriminate. }
  assert (Hr1 : reachable (exec (start sp) w)).
  { pose proof (reachable_step w (Call_start sp) Hr) as H.
    now rewrite exec_step in H. }
  assert (H0 : lastStderr (this (exec (start sp) w)) = []).
  { unfold exec. rewrite start_idle by assumption. now destruct sp. }
  pose proof (buffer_steps acts (exec (start sp) w) [] Hr1 Hf) as Hb.
  rewrite H0 in Hb. specialize (Hb eq_refl). simpl in Hb.
  split; [exact H0 |]. split; [exact Hb |]. split.
  - rewrite Hb.
    pose proof (length_trailing (Z.to_nat MAX_STDERR_LENGTH)
                  (concat (stderr_chunks
                             (length (children (exec (start sp) w))) acts))).
    unfold MAX_STDERR_LENGTH in *. lia.
  - intros -> Hold.
    assert (Hlen : length (children (exec (start Spawned) w))
                   = S (length (children w))).
    { unfold exec. rewrite start_idle by assumption. simpl.
      rewrite length_app. simpl. lia. }
    split.
    + unfold result. now rewrite start_idle by assumption.
    + rewrite Hb, Hlen. now rewrite stderr_chunks_run.
Qed.

Lemma C6_trailing_error_buffer_witness :
  let acts := [Deliver (Stderr_data 0 (lit "Duration: 00:00:10.00"));
               Deliver (Stdout_data 0 (lit "out"));
               Deliver (Stderr_data 0 (lit "frame=    1 fps=0.0"))] in
  let w1 := exec (start Spawned) idle in
  let buf := lastStderr (this (steps acts w1)) in
  lastStderr (this w1) = []
  /\ buf = trailing (Z.to_nat MAX_STDERR_LENGTH)
             (concat (stderr_chunks (length (children w1)) acts))
  /\ Z.of_nat (length buf) <= MAX_STDERR_LENGTH
  /\ result (start Spawned) idle = Pending (length (children idle))
  /\ buf = trailing (Z.to_nat MAX_STDERR_LENGTH)
             (concat (run_chunks (length (children idle)) acts)).
Proof.
  destruct (C6_trailing_error_buffer idle Spawned
              [Deliver (Stderr_data 0 (lit "Duration: 00:00:10.00"));
               Deliver (Stdout_data 0 (lit "out"));
               Deliver (Stderr_data 0 (lit "frame=    1 fps=0.0"))]
              reachable_idle eq_refl)
    as (H1 & H2 & H3 & H4).
  - repeat constructor.
  - split; [exact H1 |]. split; [exact H2 |]. split; [exact H3 |].
    apply (H4 eq_refl).
    repeat constructor; intros c d E; inversion E; simpl; lia.
Defined.

Lemma reachable_kill_failed : reachable kill_failed.
Proof. apply reachable_steps, reachable_running. Qed.

(** C6 read with the chunks of the current run alone fails:
    [kill_failed] is idle with its first process alive; [start] spawns child 1, child 1 writes [NEW ] and the
    first process then writes [OLD ].  The buffer holds both, which is not
    the text of the current run. *)
Lemma C6_trailing_error_buffer_counterexample :
  let w1 := exec (start Spawned) kill_failed in
  let acts := [Deliver (Stderr_data 1 (lit "NEW "));
               Deliver (Stderr_data 0 (lit "OLD "))] in
  reachable kill_failed
  /\ result processing kill_failed = false
  /\ result (start Spawned) kill_failed = Pending 1
  /\ concat (run_chunks 1 acts) = lit "NEW "
  /\ lastStderr (this (steps acts w1)) = lit "NEW OLD "
  /\ lastStderr (this (steps acts w1))
     <> trailing (Z.to_nat MAX_STDERR_LENGTH) (concat (run_chunks 1 acts)).
Proof.
  cbv zeta. split; [exact reachable_kill_failed |].
  split; [reflexivity |]. split; [reflexivity |]. split; [reflexivity |].
  split; [vm_compute; reflexivity |].
  vm_compute. discriminate.
Qed.

(** *** Duration, elapsed time and percent *)

Lemma track_head_duration data p :
  duration (track_size data (track_q data (track_fps data
              (track_frame data p)))) = duration p.
Proof.
  unfold track_size, track_q, track_fps, track_frame.
  repeat track_one.
Qed.

Lemma track_tail_time data p :
  timeInSeconds (track_speed data (track_bitrate data p)) = timeInSeconds p
  /\ percent (track_speed data (track_bitrate data p)) = percent p.
Proof.
  unfold track_speed, track_bitrate. repeat track_one.
Qed.

(** The elapsed-time statement when its pattern matches and the duration
    is known and positive. *)
Lemma track_time_match data p m d :
  JS.match_ data re_time = Some m ->
  duration p = Some d -> JS.gt d #0 = true ->
  let t := hms_seconds (JS.parseInt (JS.at_ m 1)) (JS.parseInt (JS.at_ m 2))
             (JS.parseFloat (JS.at_ m 3)) in
  timeInSeconds (track_time data p) = Some t
  /\ percent (track_time data p) = Some (JS.mul (JS.div t d) #100).
Proof.
  intros Hm Hd Hg. unfold track_time. rewrite Hm. cbv zeta.
  rewrite (JS_facts.hms_parse (lit "time=") data m Hm).
  simpl. rewrite Hd. simpl. rewrite Hg. simpl. auto.
Qed.

Lemma deref_copied p w : wf w -> deref (copied p w) = deref w.
Proof.
  intros [q Hq]. unfold deref, copied; simpl.
  apply lookup_total_insert_ne. intros E.
  pose proof (is_fresh (dom (store w))) as Hf. rewrite E in Hf.
  apply Hf, elem_of_dom. eauto.
Qed.

Lemma duration_next a w d :
  wf w -> is_start a = false ->
  duration (deref w) = Some d -> duration (deref (next a w)) = Some d.
Proof.
  intros Hw Hs Hd.
  destruct a as [sp | sg acc | | [c k | c k | c k | c m]];
    try discriminate.
  - simpl. destruct (child (this w)); [| assumption].
    destruct (_killed (this w)); [assumption |]. now destruct acc.
  - simpl. now rewrite deref_copied.
  - assumption.
  - rewrite <- exec_step_next, exec_step by assumption.
    destruct (decide (c < length (children w))%nat) as [Hc | Hc].
    + rewrite deliver_stderr_deref by assumption. now apply parse_duration.
    + unfold exec. now rewrite deliver_eq, bool_decide_eq_false_2.
  - simpl. now destruct (default false _).
  - simpl. now destruct (default false _).
Qed.

Lemma duration_steps acts d : forall w,
  reachable w -> Forall (fun a => is_start a = false) acts ->
  duration (deref w) = Some d -> duration (deref (steps acts w)) = Some d.
Proof.
  induction acts as [| a acts IH]; intros w Hr Hf Hd; [exact Hd |].
  inversion Hf as [| ? ? Ha Hf']; subst.
  change (steps (a :: acts) w) with (steps acts (exec (step a) w)).
  apply IH; [now constructor | assumption |].
  rewrite exec_step_next by now apply reachable_wf.
  apply duration_next; [now apply reachable_wf | assumption | assumption].
Qed.

(** C4: in every world an instance can be in, every progress object of the
    store (the one under [this._progress] and every copy handed out) has a
    percentage only if it has a duration and the duration is greater than
    0; and when the elapsed-time pattern matches a chunk and the duration
    is known and greater than 0 once the chunk is processed, the progress
    object holds the elapsed seconds [t] of the match and the percentage
    [t / duration * 100]. *)
Theorem C4_percent_invariant (w : World) :
  reachable w ->
  (forall r p,
     store w !! r = Some p -> percent p <> None ->
     exists d, duration p = Some d /\ JS.gt d #0 = true)
  /\ (forall c data m d,
        (c < length (children w))%nat ->
        JS.match_ data re_time = Some m ->
        let w' := exec (deliver (Stderr_data c data)) w in
        duration (deref w') = Some d -> JS.gt d #0 = true ->
        let t := hms_seconds (JS.parseInt (JS.at_ m 1))
                   (JS.parseInt (JS.at_ m 2)) (JS.parseFloat (JS.at_ m 3)) in
        timeInSeconds (deref w') = Some t
        /\ percent (deref w') = Some (JS.mul (JS.div t d) #100)).
Proof.
  intros Hr. pose proof (reachable_invariant w Hr) as Hi. split.
  - intros r p Hp Hpc. pose proof (inv_store w Hi r p Hp) as H.
    unfold progress_inv in H. destruct (duration p) as [d |].
    + exists d. split; [reflexivity |]. destruct H; [contradiction | assumption].
    + subst p. now contradiction Hpc.
  - intros c data m d Hc Hm. cbv zeta.
    rewrite deliver_stderr_deref by (exact (inv_wf w Hi) || assumption).
    intros Hd Hg. unfold parse in *. cbv zeta in *.
    pose proof (discover_inv data (deref w) (invariant_deref w Hi)) as Hp1.
    set (p1 := discover data (deref w)) in *.
    destruct (duration p1) as [d1 |] eqn:E1;
      [| rewrite E1 in Hd; discriminate].
    destruct (track_inv data p1 ltac:(congruence) Hp1) as [_ Ht].
    rewrite Hd, E1 in Ht. inversion Ht; subst d1. clear Ht.
    unfold track in *.
    destruct (track_tail_time data
                (track_time data (track_size data (track_q data
                   (track_fps data (track_frame data p1))))))
      as [Et Ep].
    rewrite Et, Ep.
    apply track_time_match; [assumption | | assumption].
    now rewrite track_head_duration.
Qed.

Lemma C4_percent_invariant_witness :
  let w := steps [Deliver (Stderr_data 0 (lit "Duration: 00:00:10.00"))] running in
  let data := lit "time=00:00:05.00 bitrate= 419.4kbits/s" in
  let m := default ∅ (JS.match_ data re_time) in
  let w' := exec (deliver (Stderr_data 0 data)) w in
  let t := hms_seconds (JS.parseInt (JS.at_ m 1))
             (JS.parseInt (JS.at_ m 2)) (JS.parseFloat (JS.at_ m 3)) in
  timeInSeconds (deref w') = Some t
  /\ percent (deref w')
     = Some (JS.mul (JS.div t (JS.parseFloat (lit "10"))) #100).
Proof.
  assert (Hr : reachable
                 (steps [Deliver (Stderr_data 0 (lit "Duration: 00:00:10.00"))]
                    running))
    by apply reachable_steps, reachable_running.
  destruct (C4_percent_invariant _ Hr) as [_ H].
  apply (H 0%nat (lit "time=00:00:05.00 bitrate= 419.4kbits/s")
           (default ∅ (JS.match_ (lit "time=00:00:05.00 bitrate= 419.4kbits/s")
                         re_time))
           (JS.parseFloat (lit "10"))).
  - vm_compute. lia.
  - vm_compute. reflexivity.
  - vm_compute. reflexivity.
  - vm_compute. reflexivity.
Defined.

(** C5: once the progress object has a duration, no call or event of the
    run changes it (up to the next [start]); and a chunk that matches the
    duration pattern and none of the seven others, processed while the
    duration is unknown, leaves the progress object with the duration
    [hours * 3600 + minutes * 60 + seconds] of the match, computed in
    binary64 from the parsed groups, and every other field unknown. *)
Theorem C5_duration_discovered_once (w : World) :
  reachable w ->
  (forall d acts,
     duration (deref w) = Some d ->
     Forall (fun a => is_start a = false) acts ->
     duration (deref (steps acts w)) = Some d)
  /\ (forall c data m,
        (c < length (children w))%nat ->
        duration (deref w) = None ->
        JS.match_ data re_duration = Some m ->
        JS.match_ data re_frame = None -> JS.match_ data re_fps = None ->
        JS.match_ data re_q = None -> JS.match_ data re_size = None ->
        JS.match_ data re_time = None -> JS.match_ data re_bitrate = None ->
        JS.match_ data re_speed = None ->
        let hours := JS.parseInt (JS.at_ m 1) in
        let minutes := JS.parseInt (JS.at_ m 2) in
        let seconds := JS.parseFloat (JS.at_ m 3) in
        deref (exec (deliver (Stderr_data c data)) w)
        = {| duration :=
               Some (JS.add (JS.add (JS.mul hours #3600)
                                    (JS.mul minutes #60)) seconds);
             percent := None; frame := None; fps := None; quality := None;
             sizeKB := None; timeInSeconds := None; bitrateKbps := None;
             speed := None |}).
Proof.
  intros Hr. pose proof (reachable_invariant w Hr) as Hi. split.
  - intros d acts Hd Hf. now apply duration_steps.
  - intros c data m Hc Hd Hm H1 H2 H3 H4 H5 H6 H7. cbv zeta.
    rewrite deliver_stderr_deref by (exact (inv_wf w Hi) || assumption).
    pose proof (invariant_deref w Hi) as Hp. unfold progress_inv in Hp.
    rewrite Hd in Hp. rewrite Hp.
    unfold parse, discover. simpl duration at 1. cbv iota. rewrite Hm.
    cbv zeta. rewrite (JS_facts.hms_parse (lit "Duration: ") data m Hm).
    simpl.
    unfold track, track_speed, track_bitrate, track_time, track_size,
      track_q, track_fps, track_frame.
    now rewrite H1, H2, H3, H4, H5, H6, H7.
Qed.

Lemma C5_duration_discovered_once_witness :
  let data := lit "  Duration: 00:01:02.50, start: 0.000000, bitrate: 1 kb/s" in
  let m := default ∅ (JS.match_ data re_duration) in
  let hours := JS.parseInt (JS.at_ m 1) in
  let minutes := JS.parseInt (JS.at_ m 2) in
  let seconds := JS.parseFloat (JS.at_ m 3) in
  deref (exec (deliver (Stderr_data 0 data)) running)
  = {| duration :=
         Some (JS.add (JS.add (JS.mul hours #3600) (JS.mul minutes #60))
                 seconds);
       percent := None; frame := None; fps := None; quality := None;
       sizeKB := None; timeInSeconds := None; bitrateKbps := None;
       speed := None |}
  /\ JS.at_ m 1 = lit "00" /\ JS.at_ m 2 = lit "01"
  /\ JS.at_ m 3 = lit "02.50"
  /\ duration (deref (exec (deliver (Stderr_data 0 data)) running))
     = Some (JS.parseFloat (lit "62.5")).
Proof.
  destruct (C5_duration_discovered_once running reachable_running) as [_ H].
  split.
  - apply (H 0%nat
             (lit "  Duration: 00:01:02.50, start: 0.000000, bitrate: 1 kb/s")
             (default ∅
                (JS.match_
                   (lit "  Duration: 00:01:02.50, start: 0.000000, bitrate: 1 kb/s")
                   re_duration))).
    + vm_compute. lia.
    + vm_compute. reflexivity.
    + vm_compute. reflexivity.
    + vm_compute. reflexivity.
    + vm_compute. reflexivity.
    + vm_compute. reflexivity.
    + vm_compute. reflexivity.
    + vm_compute. reflexivity.
    + vm_compute. reflexivity.
    + vm_compute. reflexivity.
  - vm_compute. repeat split; reflexivity.
Defined.

(** C3: the five fields assigned without a guard store what [parseFloat]
    returns.  With the duration known and the quality at 28, the chunk
    [q=.] matches the quality pattern with the text [.], which does not
    parse: the quality becomes [NaN] instead of staying at 28.  One chunk
    does the same to fps, quality, size, bitrate and speed at once. *)
Theorem C3_unparsable_number_is_stored :
  let w1 := exec (deliver (Stderr_data 0
                    (lit "Duration: 00:00:10.00 q=28.0"))) running in
  let w2 := exec (deliver (Stderr_data 0 (lit "q=."))) w1 in
  let w3 := exec (deliver (Stderr_data 0
                    (lit "fps=.q=. size=.kB bitrate=.kbits/s speed=.x"))) w1 in
  quality (deref w1) = Some (JS.parseFloat (lit "28.0"))
  /\ JS.isNaN (JS.parseFloat (lit "28.0")) = false
  /\ JS.at_ (default ∅ (JS.match_ (lit "q=.") re_q)) 1 = lit "."
  /\ quality (deref w2) = Some JS.NaN
  /\ fps (deref w3) = Some JS.NaN
  /\ quality (deref w3) = Some JS.NaN
  /\ sizeKB (deref w3) = Some JS.NaN
  /\ bitrateKbps (deref w3) = Some JS.NaN
  /\ speed (deref w3) = Some JS.NaN.
Proof. vm_compute. repeat split; reflexivity. Qed.

(** * Further properties *)

(** ** Effects of one action *)

Lemma effects_step a w : wf w -> effects (step a) w = emitted a w.
Proof.
  intros Hw. destruct a as [sp | sg acc | | [c d | c d | c k | c m]];
    unfold effects, step; simpl.
  - unfold bind. destruct (child (this w)) eqn:Hc.
    + rewrite start_busy by congruence. reflexivity.
    + rewrite start_idle by assumption. now destruct sp.
  - unfold bind. rewrite stop_eq. destruct (child (this w)); [| reflexivity].
    destruct (_killed (this w)); [reflexivity |]. now destruct acc.
  - reflexivity.
  - rewrite deliver_eq. now destruct (bool_decide _).
  - destruct (bool_decide (c < length (children w))%nat) eqn:Hc.
    + apply bool_decide_eq_true_1 in Hc.
      rewrite deliver_stderr_spec by assumption. cbv zeta.
      now destruct (duration (parse d (deref w))).
    + now rewrite deliver_eq, Hc.
  - rewrite deliver_eq. destruct (default false _); [| reflexivity].
    now rewrite on_close_eq.
  - rewrite deliver_eq. destruct (default false _); [| reflexivity].
    now rewrite on_error_eq.
Qed.

Lemma trace_cons a acts w :
  wf w -> trace (a :: acts) w = emitted a w ++ trace acts (next a w).
Proof.
  intros Hw. simpl. now rewrite effects_step, exec_step_next.
Qed.

Lemma steps_cons a acts w :
  wf w -> steps (a :: acts) w = steps acts (next a w).
Proof.
  intros Hw. change (steps (a :: acts) w) with (steps acts (exec (step a) w)).
  now rewrite exec_step_next.
Qed.

Lemma reachable_next a w : reachable w -> reachable (next a w).
Proof.
  intros Hr. rewrite <- exec_step_next by now apply reachable_wf.
  now constructor.
Qed.

(** ** After a successful stop *)

Lemma emitted_no_kill a w c signal :
  _killed (this w) = true -> ~ In (Kill c signal) (emitted a w).
Proof.
  intros Hk. destruct a as [sp | sg acc | | [k d | k d | k code | k m]];
    simpl.
  - destruct (child (this w)); simpl; [tauto |]. intros [H | []]. discriminate.
  - rewrite Hk. destruct (child (this w)); simpl; tauto.
  - tauto.
  - destruct (bool_decide _); simpl; [| tauto]. intros [H | []]. discriminate.
  - destruct (bool_decide _); simpl; [| tauto]. cbv zeta.
    destruct (duration _); simpl; intros H;
      repeat (destruct H as [H | H]; [discriminate |]); exact H.
  - destruct (default false _); simpl; [| tauto]. intros [H | []]. discriminate.
  - destruct (default false _); simpl; [| tauto]. intros [H | []]. discriminate.
Qed.

Lemma trace_no_kill acts c signal : forall w,
  reachable w -> _killed (this w) = true ->
  ~ In (Kill c signal) (trace acts w).
Proof.
  induction acts as [| a acts IH]; intros w Hr Hk; [simpl; tauto |].
  rewrite trace_cons by now apply reachable_wf.
  rewrite in_app_iff. intros [H | H].
  - now apply (emitted_no_kill a w c signal Hk).
  - apply (IH (next a w)); [now apply reachable_next | | exact H].
    now rewrite killed_next, Hk.
Qed.

(** X5: once a [stop] has set the killed flag, the instance never sends a
    signal again: whatever calls and events follow, also a new [start],
    every [stop] returns [false] without calling [kill] and without
    changing anything, and the trace holds no [kill]. *)
Theorem X5_no_stop_after_killed (w : World) (acts : list action) :
  reachable w -> _killed (this w) = true ->
  (forall signal accepted,
     stop signal accepted (steps acts w) = (false, steps acts w, []))
  /\ (forall c signal, ~ In (Kill c signal) (trace acts w)).
Proof.
  intros Hr Hk. split.
  - intros sg acc. rewrite stop_eq, (killed_sticky acts w Hr Hk).
    now destruct (child (this (steps acts w))).
  - intros c sg. now apply trace_no_kill.
Qed.

Lemma X5_no_stop_after_killed_witness :
  (forall signal accepted,
     stop signal accepted (steps [Call_start Spawned] finished)
     = (false, steps [Call_start Spawned] finished, []))
  /\ (forall c signal,
        ~ In (Kill c signal) (trace [Call_start Spawned] finished)).
Proof.
  apply (X5_no_stop_after_killed finished [Call_start Spawned]
           reachable_finished).
  reflexivity.
Defined.

(** ** The executable *)

Lemma execPath_next a w : execPath (this (next a w)) = execPath (this w).
Proof.
  destruct a as [sp | sg acc | | [k d | k d | k code | k m]]; simpl;
    try reflexivity.
  - destruct (child (this w)); [reflexivity |]. now destruct sp.
  - destruct (child (this w)); [| reflexivity].
    destruct (_killed (this w)); [reflexivity |]. now destruct acc.
  - destruct (bool_decide _); [| reflexivity]. cbv zeta.
    now destruct (duration _).
  - now destruct (default false _).
  - now destruct (default false _).
Qed.

Lemma execPath_steps acts : forall w,
  reachable w -> execPath (this (steps acts w)) = execPath (this w).
Proof.
  induction acts as [| a acts IH]; intros w Hr; [reflexivity |].
  rewrite steps_cons by now apply reachable_wf.
  rewrite (IH (next a w) (reachable_next a w Hr)). apply execPath_next.
Qed.

Lemma emitted_spawn a w p l :
  In (Spawn p l) (emitted a w) -> p = execPath (this w).
Proof.
  destruct a as [sp | sg acc | | [k d | k d | k code | k m]]; simpl.
  - destruct (child (this w)); simpl; [tauto |].
    intros [H | []]. now inversion H.
  - destruct (child (this w)); simpl; [| tauto].
    destruct (_killed (this w)); simpl; [tauto |].
    intros [H | []]. discriminate.
  - tauto.
  - destruct (bool_decide _); simpl; [| tauto]. intros [H | []]. discriminate.
  - destruct (bool_decide _); simpl; [| tauto]. cbv zeta.
    destruct (duration _); simpl; intros H;
      repeat (destruct H as [H | H]; [discriminate |]); destruct H.
  - destruct (default false _); simpl; [| tauto]. intros [H | []]. discriminate.
  - destruct (default false _); simpl; [| tauto]. intros [H | []]. discriminate.
Qed.

Lemma trace_spawn acts p l : forall w,
  reachable w -> In (Spawn p l) (trace acts w) -> p = execPath (this w).
Proof.
  induction acts as [| a acts IH]; intros w Hr H; [destruct H |].
  rewrite trace_cons in H by now apply reachable_wf.
  apply in_app_iff in H as [H | H].
  - now apply emitted_spawn in H.
  - rewrite (IH (next a w) (reachable_next a w Hr) H). apply execPath_next.
Qed.

(** X6: [execPath] is the string the constructor was given, [ffmpeg] when
    it was given none, for the life of the instance, and every [spawn]
    the instance ever makes is called with that path. *)
Theorem X6_spawn_uses_constructor_execPath (a : list str)
    (e : option str) (acts : list action) :
  execPath (this (steps acts (constructor a e))) = default (lit "ffmpeg") e
  /\ (forall p l,
        In (Spawn p l) (trace acts (constructor a e)) ->
        p = default (lit "ffmpeg") e).
Proof.
  pose proof (reachable_new a e) as Hr. split.
  - now rewrite execPath_steps.
  - intros p l H. apply (trace_spawn acts p l _ Hr H).
Qed.

(** ** Output events *)

Lemma events_steps acts : forall w,
  reachable w -> Forall (fun a => is_start a = false) acts ->
  stdout_events (trace acts w) = stdout_chunks (length (children w)) acts
  /\ stderr_events (trace acts w) = stderr_chunks (length (children w)) acts.
Proof.
  induction acts as [| a acts IH]; intros w Hr Hf; [split; reflexivity |].
  inversion Hf as [| ? ? Ha Hf']; subst.
  rewrite trace_cons by now apply reachable_wf.
  destruct (IH (next a w) (reachable_next a w Hr) Hf') as [IH1 IH2].
  destruct (buffer_next a w Ha) as [Hlen _]. rewrite Hlen in IH1, IH2.
  unfold stdout_events, stderr_events in *. rewrite !omap_app, IH1, IH2.
  unfold stdout_chunks, stderr_chunks.
  destruct a as [sp | sg acc | | [k d | k d | k code | k m]];
    try discriminate; simpl.
  - destruct (child (this w)); [| split; reflexivity].
    destruct (_killed (this w)); split; reflexivity.
  - split; reflexivity.
  - destruct (bool_decide _); split; reflexivity.
  - destruct (bool_decide _); [| split; reflexivity]. cbv zeta.
    destruct (duration _); split; reflexivity.
  - destruct (default false _); split; reflexivity.
  - destruct (default false _); split; reflexivity.
Qed.

(** X10: between two calls of [start], the stdout events the instance
    emits are the chunks delivered on the standard output of its
    children, each once, unchanged and in the order of delivery, and the
    stderr events are likewise the chunks delivered on the diagnostic
    channel; the trailing buffer, the parsing and the progress events
    drop, repeat or reorder none of them. *)
Theorem X10_output_events_in_order (w : World) (acts : list action) :
  reachable w -> Forall (fun a => is_start a = false) acts ->
  stdout_events (trace acts w) = stdout_chunks (length (children w)) acts
  /\ stderr_events (trace acts w) = stderr_chunks (length (children w)) acts.
Proof. intros Hr Hf. now apply events_steps. Qed.

Lemma X10_output_events_in_order_witness :
  let acts := [Deliver (Stdout_data 0 (lit "a"));
               Deliver (Stderr_data 0 (lit "Duration: 00:00:10.00"));
               Call_stop None false;
               Deliver (Stdout_data 0 (lit "b"));
               Deliver (Stderr_data 0 (lit "frame=    1 fps=0.0"))] in
  stdout_events (trace acts running)
  = stdout_chunks (length (children running)) acts
  /\ stderr_events (trace acts running)
     = stderr_chunks (length (children running)) acts.
Proof.
  apply (X10_output_events_in_order running
           [Deliver (Stdout_data 0 (lit "a"));
            Deliver (Stderr_data 0 (lit "Duration: 00:00:10.00"));
            Call_stop None false;
            Deliver (Stdout_data 0 (lit "b"));
            Deliver (Stderr_data 0 (lit "frame=    1 fps=0.0"))]
           reachable_running).
  repeat constructor.
Defined.

(** ** The trailing buffer in every world *)

Lemma length_appended buf data :
  Z.of_nat (length (appended buf data)) <= MAX_STDERR_LENGTH.
Proof.
  rewrite appended_trailing.
  pose proof (length_trailing (Z.to_nat MAX_STDERR_LENGTH) (buf ++ data)).
  unfold MAX_STDERR_LENGTH in *. lia.
Qed.

Lemma buffer_bound_next a w :
  Z.of_nat (length (lastStderr (this w))) <= MAX_STDERR_LENGTH ->
  Z.of_nat (length (lastStderr (this (next a w)))) <= MAX_STDERR_LENGTH.
Proof.
  intros H.
  destruct a as [sp | sg acc | | [k d | k d | k code | k m]]; simpl;
    try assumption.
  - destruct (child (this w)); [assumption |].
    destruct sp; simpl; unfold MAX_STDERR_LENGTH; lia.
  - destruct (child (this w)); [| assumption].
    destruct (_killed (this w)); [assumption |]. now destruct acc.
  - destruct (bool_decide _); [| assumption]. cbv zeta.
    destruct (duration _); simpl; apply length_appended.
  - now destruct (default false _).
  - now destruct (default false _).
Qed.

(** X11: in every world an instance can be in, whatever the calls and
    events that led to it, the trailing error buffer holds at most 32000
    code units. *)
Theorem X11_buffer_bounded (w : World) :
  reachable w ->
  Z.of_nat (length (lastStderr (this w))) <= MAX_STDERR_LENGTH.
Proof.
  induction 1 as [a e | w a Hr IH].
  - simpl. unfold MAX_STDERR_LENGTH. lia.
  - rewrite exec_step_next by now apply reachable_wf.
    now apply buffer_bound_next.
Qed.

Lemma X11_buffer_bounded_witness :
  Z.of_nat (length (lastStderr (this finished))) <= MAX_STDERR_LENGTH.
Proof. apply (X11_buffer_bounded finished reachable_finished). Defined.

(** ** Handles and promises *)

Lemma promise_alter_ne f k c w :
  k <> c -> promise c (set_children (alter f k (children w)) w) = promise c w.
Proof.
  intros H. unfold promise; simpl. now rewrite list_lookup_alter_ne.
Qed.

(** The promises after a close or error listener has run. *)
Lemma promise_fired (g : ChildProcess -> ChildProcess) k r c w :
  (forall ch, settled (g ch) = settled ch) ->
  promise c (resolved k r (update (set_child None)
               (set_children (alter g k (children w)) w)))
  = if decide (k = c)
    then match children w !! c with
         | Some ch => Some (default r (settled ch))
         | None => None
         end
    else promise c w.
Proof.
  intros Hg. unfold promise, resolved; simpl. rewrite list_alter_alter_eq.
  case_decide as Hk.
  - subst k. rewrite list_lookup_alter_eq.
    destruct (children w !! c) as [ch |]; simpl; [| reflexivity].
    rewrite Hg. now destruct (settled ch).
  - now rewrite list_lookup_alter_ne.
Qed.

Lemma promise_next_cases a c w :
  promise c (next a w)
  = match a with
    | Deliver (Close k code) =>
        if default false (closeListener <$> children w !! k) then
          if decide (k = c)
          then match children w !! c with
               | Some ch =>
                   Some (default (close_result code (lastStderr (this w)))
                           (settled ch))
               | None => None
               end
          else promise c w
        else promise c w
    | Deliver (Error k msg) =>
        if default false (errorListener <$> children w !! k) then
          if decide (k = c)
          then match children w !! c with
               | Some ch =>
                   Some (default (err {| code := -1; message := msg |})
                           (settled ch))
               | None => None
               end
          else promise c w
        else promise c w
    | Call_start Spawned =>
        match child (this w) with
        | Some _ => promise c w
        | None => if decide (c = length (children w)) then None
                  else promise c w
        end
    | _ => promise c w
    end.
Proof.
  destruct a as [sp | sg acc | | [k d | k d | k code | k m]]; simpl.
  - destruct (child (this w)); [now destruct sp |].
    destruct sp; [| reflexivity]. unfold promise; simpl.
    case_decide as Hc.
    + subst c. now rewrite lookup_app_r, Nat.sub_diag by lia.
    + destruct (decide (c < length (children w))%nat).
      * now rewrite lookup_app_l by assumption.
      * rewrite (lookup_ge_None_2 (children w)) by lia.
        now rewrite lookup_ge_None_2 by (rewrite length_app; simpl; lia).
  - destruct (child (this w)); [| reflexivity].
    destruct (_killed (this w)); [reflexivity |]. now destruct acc.
  - reflexivity.
  - reflexivity.
  - destruct (bool_decide _); [| reflexivity]. cbv zeta.
    now destruct (duration _).
  - destruct (default false _); [| reflexivity].
    unfold close_fired. now rewrite promise_fired.
  - destruct (default false _); [| reflexivity].
    unfold error_fired. now rewrite promise_fired.
Qed.

(** X7: the promise [start] returned for a child is settled only by the
    close or the error event of that same child, with the result of that
    listener; no call of [start] or [stop], no output chunk and no event
    of another child settles it. *)
Theorem X7_promise_settled_by_own_events (w : World) (a : action) (c : nat)
    (r : Result) :
  reachable w -> promise c w = None ->
  promise c (exec (step a) w) = Some r ->
  (exists code,
     a = Deliver (Close c code)
     /\ r = close_result code (lastStderr (this w)))
  \/ (exists msg,
        a = Deliver (Error c msg)
        /\ r = err {| code := -1; message := msg |}).
Proof.
  intros Hr Hp. rewrite exec_step_next by now apply reachable_wf.
  rewrite promise_next_cases.
  assert (Hs : forall ch, children w !! c = Some ch -> settled ch = None).
  { intros ch Hc. unfold promise in Hp. now rewrite Hc in Hp. }
  destruct a as [sp | sg acc | | [k d | k d | k code | k m]];
    try (rewrite Hp; discriminate).
  - destruct sp; [| rewrite Hp; discriminate].
    destruct (child (this w)); [rewrite Hp; discriminate |].
    case_decide; [discriminate | rewrite Hp; discriminate].
  - destruct (default false _); [| rewrite Hp; discriminate].
    case_decide as Hk; [| rewrite Hp; discriminate]. subst k.
    destruct (children w !! c) as [ch |] eqn:Hc; [| discriminate].
    rewrite (Hs ch eq_refl). simpl. intros H. inversion H. left. eauto.
  - destruct (default false _); [| rewrite Hp; discriminate].
    case_decide as Hk; [| rewrite Hp; discriminate]. subst k.
    destruct (children w !! c) as [ch |] eqn:Hc; [| discriminate].
    rewrite (Hs ch eq_refl). simpl. intros H. inversion H. right. eauto.
Qed.

Lemma X7_promise_settled_by_own_events_witness :
  (exists code,
     Deliver (Close 0 (Some 1)) = Deliver (Close 0 code)
     /\ err {| code := 1; message := [] |}
        = close_result code (lastStderr (this running)))
  \/ (exists msg,
        Deliver (Close 0 (Some 1)) = Deliver (Error 0 msg)
        /\ err {| code := 1; message := [] |}
           = err {| code := -1; message := msg |}).
Proof.
  apply (X7_promise_settled_by_own_events running (Deliver (Close 0 (Some 1)))
           0%nat (err {| code := 1; message := [] |}) reachable_running).
  - reflexivity.
  - reflexivity.
Defined.

Lemma handle_inv_next a w : handle_inv w -> handle_inv (next a w).
Proof.
  intros H.
  destruct a as [sp | sg acc | | [k d | k d | k code | k m]]; simpl;
    try exact H.
  - destruct (child (this w)) eqn:Hc; [exact H |].
    destruct sp; intros c Hc'; simpl in Hc'; [| congruence].
    inversion Hc'; subst c. simpl. rewrite length_app. simpl.
    split; [lia |]. exists listening.
    now rewrite lookup_app_r, Nat.sub_diag by lia.
  - destruct (child (this w)) eqn:Hc; [| exact H].
    destruct (_killed (this w)); [exact H |]. destruct acc; [| exact H].
    intros c Hc'. simpl in Hc'. apply H. congruence.
  - destruct (bool_decide _); [| exact H]. cbv zeta.
    destruct (duration _); intros c Hc'; simpl in Hc'; now apply H.
  - destruct (default false _); [| exact H]. intros c Hc'. discriminate.
  - destruct (default false _); [| exact H]. intros c Hc'. discriminate.
Qed.

Lemma reachable_handle_inv w : reachable w -> handle_inv w.
Proof.
  induction 1 as [a e | w a Hr IH].
  - intros c Hc. discriminate.
  - rewrite exec_step_next by now apply reachable_wf.
    now apply handle_inv_next.
Qed.

(** X8: while the instance is processing, its handle refers to the child
    spawned last, the promise [start] returned for that child is still
    pending, and the close and error listeners of that child are both
    registered. *)
Theorem X8_handle_is_pending_run (w : World) (c : nat) :
  reachable w -> child (this w) = Some c ->
  S c = length (children w)
  /\ exists ch,
       children w !! c = Some ch /\ settled ch = None
       /\ closeListener ch = true /\ errorListener ch = true.
Proof.
  intros Hr Hc. destruct (reachable_handle_inv w Hr c Hc) as [Hl (ch & H1 & H2)].
  split; [exact Hl |]. exists ch.
  destruct (pending_listeners w c ch Hr H1 H2). auto.
Qed.

Lemma X8_handle_is_pending_run_witness :
  S 0 = length (children running)
  /\ exists ch,
       children running !! 0%nat = Some ch /\ settled ch = None
       /\ closeListener ch = true /\ errorListener ch = true.
Proof.
  apply (X8_handle_is_pending_run running 0 reachable_running). reflexivity.
Defined.

Lemma reachable_restarted_early : reachable restarted_early.
Proof. apply reachable_steps, reachable_running. Qed.

(** X9: the close and error listeners clear the handle of the instance
    whichever child they belong to.  When the event comes from an earlier
    child while a later run is processing, the instance stops processing
    although the promise of the later run is still pending, and the next
    [start] is accepted and spawns a further child. *)
Theorem X9_earlier_child_clears_handle (w : World) (c c' : nat)
    (ch : ChildProcess) :
  reachable w -> child (this w) = Some c' -> c <> c' ->
  children w !! c = Some ch ->
  (closeListener ch = true ->
   forall code,
     let w' := exec (deliver (Close c code)) w in
     result processing w' = false /\ promise c' w' = None
     /\ result (start Spawned) w' = Pending (length (children w)))
  /\ (errorListener ch = true ->
      forall msg,
        let w' := exec (deliver (Error c msg)) w in
        result processing w' = false /\ promise c' w' = None
        /\ result (start Spawned) w' = Pending (length (children w))).
Proof.
  intros Hr Hc' Hne Hc.
  destruct (reachable_handle_inv w Hr c' Hc') as [_ (ch' & H1 & H2)].
  assert (Hp : promise c' w = None) by (unfold promise; now rewrite H1).
  pose proof (reachable_wf w Hr) as Hw.
  split; intros Hl x; cbv zeta.
  - pose proof (exec_step_next (Deliver (Close c x)) w Hw) as E.
    rewrite exec_step in E. rewrite E.
    pose proof (promise_next_cases (Deliver (Close c x)) c' w) as P.
    simpl in P. simpl. rewrite Hc in *. simpl in *. rewrite Hl in *.
    rewrite decide_False in P by assumption.
    split; [reflexivity |]. split; [congruence |].
    unfold result. rewrite start_idle by reflexivity. simpl.
    now rewrite !length_alter.
  - pose proof (exec_step_next (Deliver (Error c x)) w Hw) as E.
    rewrite exec_step in E. rewrite E.
    pose proof (promise_next_cases (Deliver (Error c x)) c' w) as P.
    simpl in P. simpl. rewrite Hc in *. simpl in *. rewrite Hl in *.
    rewrite decide_False in P by assumption.
    split; [reflexivity |]. split; [congruence |].
    unfold result. rewrite start_idle by reflexivity. simpl.
    now rewrite !length_alter.
Qed.

Lemma X9_earlier_child_clears_handle_witness :
  child (this restarted_early) = Some 1%nat
  /\ result processing (exec (deliver (Close 0 (Some (-2)))) restarted_early)
     = false
  /\ promise 1 (exec (deliver (Close 0 (Some (-2)))) restarted_early) = None
  /\ result (start Spawned)
       (exec (deliver (Close 0 (Some (-2)))) restarted_early)
     = Pending (length (children restarted_early)).
Proof.
  split; [reflexivity |].
  destruct (X9_earlier_child_clears_handle restarted_early 0 1
              {| closeListener := true; errorListener := false;
                 settled := Some (err {| code := -1;
                                         message := lit "spawn ENOENT" |}) |}
              reachable_restarted_early eq_refl ltac:(discriminate) eq_refl)
    as [H _].
  apply (H eq_refl (Some (-2))).
Defined.

(** ** The progress getter *)

(** X1: the [progress] getter returns a new object with the fields of the
    progress object and emits nothing; it leaves the fields of the
    instance, its children, the progress object and every object already
    in the store as they are, and no later call or event changes the
    object it returned. *)
Theorem X1_progress_returns_a_copy (w : World) :
  reachable w ->
  let r := result progress w in
  let w' := exec progress w in
  effects progress w = []
  /\ this w' = this w /\ children w' = children w
  /\ store w !! r = None
  /\ (forall k p, store w !! k = Some p -> store w' !! k = Some p)
  /\ store w' !! r = Some (deref w)
  /\ deref w' = deref w
  /\ forall acts, store (steps acts w') !! r = Some (deref w).
Proof.
  intros Hr. cbv zeta. pose proof (reachable_wf w Hr) as Hw.
  assert (Hfresh : store w !! fresh (dom (store w)) = None)
    by apply not_elem_of_dom, is_fresh.
  assert (Hne : fresh (dom (store w)) <> _progress (this w)).
  { intros E. destruct Hw as [p Hp]. rewrite E in Hfresh. congruence. }
  assert (Hr' : reachable (exec progress w))
    by apply (reachable_step w Call_progress Hr).
  unfold result, exec, effects, progress, bind, progress_, new in *.
  simpl in *.
  repeat split.
  - exact Hfresh.
  - intros k p Hk. rewrite lookup_insert_ne; [exact Hk | congruence].
  - apply lookup_insert_eq.
  - apply (deref_copied (deref w) w Hw).
  - intros acts. apply snapshot_steps; [exact Hr' | apply lookup_insert_eq |].
    exact Hne.
Qed.

Lemma X1_progress_returns_a_copy_witness :
  let r := result progress finished in
  let w' := exec progress finished in
  effects progress finished = []
  /\ this w' = this finished /\ children w' = children finished
  /\ store finished !! r = None
  /\ (forall k p, store finished !! k = Some p -> store w' !! k = Some p)
  /\ store w' !! r = Some (deref finished)
  /\ deref w' = deref finished
  /\ forall acts, store (steps acts w') !! r = Some (deref finished).
Proof. apply (X1_progress_returns_a_copy finished reachable_finished). Defined.

(** ** Chunks before the duration is known *)

(** X2: while the duration is unknown, a chunk in which the duration
    pattern does not match only reaches the stderr event and the trailing
    buffer: the progress object stays empty whatever else the chunk
    matches, the store is unchanged and no progress event is emitted. *)
Theorem X2_no_tracking_before_duration (w : World) (c : nat) (data : str) :
  reachable w -> (c < length (children w))%nat ->
  duration (deref w) = None -> JS.match_ data re_duration = None ->
  let w' := exec (deliver (Stderr_data c data)) w in
  deref w' = EmptyProgress /\ store w' = store w
  /\ effects (deliver (Stderr_data c data)) w = [Emit_stderr data].
Proof.
  intros Hr Hc Hd Hm. cbv zeta.
  pose proof (reachable_invariant w Hr) as Hi.
  pose proof (inv_wf w Hi) as Hw.
  pose proof (invariant_deref w Hi) as Hp. unfold progress_inv in Hp.
  rewrite Hd in Hp.
  assert (E : parse data (deref w) = deref w).
  { unfold parse, discover. rewrite Hd, Hm. cbv zeta. now rewrite Hd. }
  unfold exec, effects. rewrite deliver_stderr_spec by assumption.
  cbv zeta. rewrite E, Hd. simpl.
  split; [now rewrite deref_put |]. split; [| reflexivity].
  unfold put; simpl. apply insert_id.
  destruct Hw as [p Hq]. rewrite (deref_lookup w p Hq). exact Hq.
Qed.

Lemma X2_no_tracking_before_duration_witness :
  let data := lit "frame=    1 fps=0.0 q=28.0 size=       0kB time=00:00:00.04 bitrate=   9.6kbits/s speed=0.5x" in
  let w' := exec (deliver (Stderr_data 0 data)) running in
  deref w' = EmptyProgress /\ store w' = store running
  /\ effects (deliver (Stderr_data 0 data)) running = [Emit_stderr data].
Proof.
  apply (X2_no_tracking_before_duration running 0
           (lit "frame=    1 fps=0.0 q=28.0 size=       0kB time=00:00:00.04 bitrate=   9.6kbits/s speed=0.5x")
           reachable_running).
  - vm_compute. lia.
  - vm_compute. reflexivity.
  - vm_compute. reflexivity.
Defined.

(** ** Field by field *)

Lemma discover_fields data p :
  frame (discover data p) = frame p /\ fps (discover data p) = fps p
  /\ quality (discover data p) = quality p
  /\ sizeKB (discover data p) = sizeKB p
  /\ timeInSeconds (discover data p) = timeInSeconds p
  /\ percent (discover data p) = percent p
  /\ bitrateKbps (discover data p) = bitrateKbps p
  /\ speed (discover data p) = speed p.
Proof.
  unfold discover. destruct (duration p); [tauto |].
  destruct (JS.match_ data re_duration); [| tauto]. cbv zeta.
  destruct (negb _ && negb _ && negb _); simpl; tauto.
Qed.

Lemma track_fields data p :
  frame (track data p)
  = latest (JS.match_ data re_frame) JS.parseInt (frame p)
  /\ fps (track data p)
     = latest (JS.match_ data re_fps) JS.parseFloat (fps p)
  /\ quality (track data p)
     = latest (JS.match_ data re_q) JS.parseFloat (quality p)
  /\ sizeKB (track data p)
     = latest (JS.match_ data re_size) JS.parseFloat (sizeKB p)
  /\ bitrateKbps (track data p)
     = latest (JS.match_ data re_bitrate) JS.parseFloat (bitrateKbps p)
  /\ speed (track data p)
     = latest (JS.match_ data re_speed) JS.parseFloat (speed p)
  /\ (JS.match_ data re_time = None ->
      timeInSeconds (track data p) = timeInSeconds p
      /\ percent (track data p) = percent p).
Proof.
  unfold track, track_speed, track_bitrate, track_time, track_size, track_q,
    track_fps, track_frame, latest.
  destruct (JS.match_ data re_time) as [m |].
  - cbv zeta. destruct (negb _ && negb _ && negb _).
    + match goal with
      | |- context [if JS.gt ?a ?b then _ else _] => destruct (JS.gt a b)
      end;
        destruct (JS.match_ data re_frame), (JS.match_ data re_fps),
          (JS.match_ data re_q), (JS.match_ data re_size),
          (JS.match_ data re_bitrate), (JS.match_ data re_speed);
        simpl; repeat split; discriminate.
    + destruct (JS.match_ data re_frame), (JS.match_ data re_fps),
        (JS.match_ data re_q), (JS.match_ data re_size),
        (JS.match_ data re_bitrate), (JS.match_ data re_speed);
        simpl; repeat split; discriminate.
  - destruct (JS.match_ data re_frame), (JS.match_ data re_fps),
      (JS.match_ data re_q), (JS.match_ data re_size),
      (JS.match_ data re_bitrate), (JS.match_ data re_speed);
      simpl; repeat split; reflexivity.
Qed.

(** X3: when the duration is known once a chunk is processed, each of
    frame, fps, quality, size, bitrate and speed holds what the chunk's
    match of its own pattern parses to, and keeps its previous value when
    its pattern does not match; without a match of the elapsed-time
    pattern the elapsed seconds and the percentage keep theirs.  No
    pattern's match changes another pattern's field. *)
Theorem X3_fields_are_independent (w : World) (c : nat) (data : str) :
  reachable w -> (c < length (children w))%nat ->
  let w' := exec (deliver (Stderr_data c data)) w in
  duration (deref w') <> None ->
  frame (deref w')
  = latest (JS.match_ data re_frame) JS.parseInt (frame (deref w))
  /\ fps (deref w')
     = latest (JS.match_ data re_fps) JS.parseFloat (fps (deref w))
  /\ quality (deref w')
     = latest (JS.match_ data re_q) JS.parseFloat (quality (deref w))
  /\ sizeKB (deref w')
     = latest (JS.match_ data re_size) JS.parseFloat (sizeKB (deref w))
  /\ bitrateKbps (deref w')
     = latest (JS.match_ data re_bitrate) JS.parseFloat
         (bitrateKbps (deref w))
  /\ speed (deref w')
     = latest (JS.match_ data re_speed) JS.parseFloat (speed (deref w))
  /\ (JS.match_ data re_time = None ->
      timeInSeconds (deref w') = timeInSeconds (deref w)
      /\ percent (deref w') = percent (deref w)).
Proof.
  intros Hr Hc. cbv zeta.
  rewrite deliver_stderr_deref by (try apply reachable_wf; assumption).
  unfold parse. cbv zeta.
  destruct (duration (discover data (deref w))) eqn:E; [| congruence].
  intros _.
  destruct (discover_fields data (deref w))
    as (F1 & F2 & F3 & F4 & F5 & F6 & F7 & F8).
  rewrite <- F1, <- F2, <- F3, <- F4, <- F5, <- F6, <- F7, <- F8.
  apply track_fields.
Qed.

Lemma X3_fields_are_independent_witness :
  let w := steps [Deliver (Stderr_data 0 (lit "Duration: 00:00:10.00"));
                  Deliver (Stderr_data 0 (lit "frame=  123 fps= 25 q=28.0 size=     256kB time=00:00:05.00 bitrate= 419.4kbits/s speed=1.5x"))]
             running in
  let data := lit "frame=  130 fps= 26 q=" in
  let w' := exec (deliver (Stderr_data 0 data)) w in
  frame (deref w')
  = latest (JS.match_ data re_frame) JS.parseInt (frame (deref w))
  /\ fps (deref w')
     = latest (JS.match_ data re_fps) JS.parseFloat (fps (deref w))
  /\ quality (deref w')
     = latest (JS.match_ data re_q) JS.parseFloat (quality (deref w))
  /\ sizeKB (deref w')
     = latest (JS.match_ data re_size) JS.parseFloat (sizeKB (deref w))
  /\ bitrateKbps (deref w')
     = latest (JS.match_ data re_bitrate) JS.parseFloat
         (bitrateKbps (deref w))
  /\ speed (deref w')
     = latest (JS.match_ data re_speed) JS.parseFloat (speed (deref w))
  /\ (JS.match_ data re_time = None ->
      timeInSeconds (deref w') = timeInSeconds (deref w)
      /\ percent (deref w') = percent (deref w)).
Proof.
  apply (X3_fields_are_independent
           (steps [Deliver (Stderr_data 0 (lit "Duration: 00:00:10.00"));
                   Deliver (Stderr_data 0 (lit "frame=  123 fps= 25 q=28.0 size=     256kB time=00:00:05.00 bitrate= 419.4kbits/s speed=1.5x"))]
              running)
           0 (lit "frame=  130 fps= 26 q=")).
  - apply reachable_steps, reachable_running.
  - vm_compute. lia.
  - vm_compute. discriminate.
Defined.

(** ** The guarded fields never hold [NaN] *)

Lemma nonneg_not_nan x : nonneg x = true -> JS.isNaN x = false.
Proof. now destruct x. Qed.

Lemma binary_round_aux_nonneg mx ex lx :
  0 <= mx ->
  nonneg (binary_round_aux JS.prec JS.emax false mx ex lx) = true.
Proof.
  intros H. unfold binary_round_aux.
  pose proof (JS_facts.shr_fexp_nonneg mx ex lx H) as H1.
  destruct (shr_fexp JS.prec JS.emax mx ex lx) as [mrs' e']. simpl in H1.
  pose proof (JS_facts.shr_fexp_nonneg _ e' loc_Exact
                (JS_facts.round_nearest_even_nonneg _
                   (loc_of_shr_record mrs') H1)) as H2.
  destruct (shr_fexp JS.prec JS.emax _ e' loc_Exact) as [mrs'' e''].
  simpl in H2.
  destruct (shr_m mrs''); [reflexivity | | lia].
  destruct (e'' <=? JS.emax - JS.prec); reflexivity.
Qed.

Lemma of_ratio_nonneg n d : nonneg (JS.of_ratio false n d) = true.
Proof.
  destruct n as [| p]; [reflexivity |]. unfold JS.of_ratio, JS.div, SFdiv.
  unfold SFdiv_core_binary.
  set (m' := match _ - _ with Z0 => _ | Zpos _ => _ | Zneg _ => _ end).
  assert (Hm : 0 <= m').
  { subst m'. destruct (_ - _); try lia. apply Z.shiftl_nonneg. lia. }
  pose proof (Z_div_mod m' (Z.pos d) ltac:(lia)) as Hq.
  destruct (Z.div_eucl m' (Z.pos d)) as [q r].
  apply binary_round_aux_nonneg. destruct Hq as [Hq Hr]. nia.
Qed.

Lemma parseInt_digits_nonneg s :
  JS_spec.digit1 s -> nonneg (JS.parseInt s) = true.
Proof.
  intros Hs. destruct (JS_facts.digit1_head s Hs) as (c & r & -> & Hc).
  unfold JS.parseInt.
  rewrite JS_facts.trimStart_digit, JS_facts.readSign_digit by assumption.
  rewrite JS_facts.span_all by apply Hs. apply of_ratio_nonneg.
Qed.

Lemma parseFloat_decimal_nonneg s :
  JS_spec.decimal s -> nonneg (JS.parseFloat s) = true.
Proof.
  intros (a & Ha & Hs).
  destruct (JS_facts.digit1_head a Ha) as (c & r & -> & Hc).
  assert (Hstart : forall t,
    JS.parseFloat ((c :: r) ++ t)
    = let '(ip, r1) := JS.span JS.isDigit ((c :: r) ++ t) in
      let '(fp, r2) :=
        match r1 with
        | c :: r => if JS.isDot c then JS.span JS.isDigit r else ([], r1)
        | [] => ([], r1)
        end in
      match ip ++ fp with
      | [] => JS.NaN
      | ds =>
          let ex := JS.readExponent r2 - Z.of_nat (length fp) in
          JS.of_ratio false (JS.digitsValue ds * N.pow 10 (Z.to_N ex))
            (if ex <? 0 then Pos.pow 10 (Z.to_pos (- ex)) else 1%positive)
      end).
  { intros t. unfold JS.parseFloat. simpl app.
    rewrite JS_facts.trimStart_digit, JS_facts.readSign_digit by assumption.
    replace (JS.isPrefix (lit "Infinity") (c :: r ++ t)) with false;
      [reflexivity |].
    clear -Hc. apply JS_facts.isDigit_cases in Hc.
    repeat (destruct Hc as [Hc | Hc]; [subst; reflexivity |]).
    subst; reflexivity. }
  destruct Hs as [-> | (b & Hb & ->)].
  - rewrite <- (app_nil_r (c :: r)), Hstart, app_nil_r.
    rewrite JS_facts.span_all by apply Ha. simpl. apply of_ratio_nonneg.
  - rewrite Hstart. change (lit "." ++ b) with (46%N :: b).
    rewrite JS_facts.span_stop by (apply Ha || reflexivity).
    change (JS.isDot 46%N) with true. cbv iota.
    rewrite JS_facts.span_all by apply Hb.
    destruct (JS_facts.digit1_head b Hb) as (c' & r' & -> & _).
    simpl. apply of_ratio_nonneg.
Qed.

Lemma mul_nonneg x m e :
  nonneg x = true -> nonneg (JS.mul x (S754_finite false m e)) = true.
Proof.
  destruct x as [s | s | | s mx ex]; simpl; try discriminate;
    try (now destruct s).
  destruct s; [discriminate |]. intros _.
  apply binary_round_aux_nonneg. lia.
Qed.

Lemma add_nonneg x y :
  nonneg x = true -> nonneg y = true -> nonneg (JS.add x y) = true.
Proof.
  destruct x as [sx | sx | | sx mx ex], y as [sy | sy | | sy my ey];
    simpl; try discriminate;
    try (destruct sx; [discriminate |]);
    try (destruct sy; [discriminate |]);
    try reflexivity.
  intros _ _. unfold JS.add, SFadd. simpl cond_Zopp.
  match goal with
  | |- context [binary_normalize _ _ (Z.pos ?a + Z.pos ?b) ?e _] =>
      change (Z.pos a + Z.pos b) with (Z.pos (a + b))
  end.
  unfold binary_normalize, binary_round.
  destruct (shl_align _ _ _) as [mz ez].
  apply binary_round_aux_nonneg. lia.
Qed.

Lemma hms_seconds_nonneg h m s :
  nonneg h = true -> nonneg m = true -> nonneg s = true ->
  nonneg (hms_seconds h m s) = true.
Proof.
  intros Hh Hm Hs. unfold hms_seconds.
  assert (E1 : exists a b, #3600 = S754_finite false a b)
    by (vm_compute; eauto).
  assert (E2 : exists a b, #60 = S754_finite false a b)
    by (vm_compute; eauto).
  destruct E1 as (a1 & b1 & ->), E2 as (a2 & b2 & ->).
  auto using add_nonneg, mul_nonneg.
Qed.

(** The numbers a duration or time match parses to. *)
Lemma hms_nonneg (l : str) data m :
  JS.match_ data (JS.Chars l ⋅ hms) = Some m ->
  nonneg (hms_seconds (JS.parseInt (JS.at_ m 1)) (JS.parseInt (JS.at_ m 2))
            (JS.parseFloat (JS.at_ m 3))) = true.
Proof.
  intros H.
  pose proof (JS_facts.match_sound JS_spec.hmsQ _
                (JS_facts.hms_groups_ok l) _ _ H) as Hm.
  destruct (Hm 1%nat ltac:(lia)) as [_ H1].
  destruct (Hm 2%nat ltac:(lia)) as [_ H2].
  destruct (Hm 3%nat ltac:(lia)) as [_ H3].
  destruct H1 as (x1 & E1 & Q1); [simpl; tauto |].
  destruct H2 as (x2 & E2 & Q2); [simpl; tauto |].
  destruct H3 as (x3 & E3 & Q3); [simpl; tauto |].
  unfold JS.at_. rewrite E1, E2, E3. simpl.
  apply hms_seconds_nonneg;
    auto using parseInt_digits_nonneg, parseFloat_decimal_nonneg.
Qed.

(** The frame count a match parses to. *)
Lemma frame_nonneg data m :
  JS.match_ data re_frame = Some m ->
  nonneg (JS.parseInt (JS.at_ m 1)) = true.
Proof.
  intros H.
  assert (Hok : JS_spec.groups_ok
                  (fun i s => match i with
                              | 1%nat => JS_spec.digit1 s
                              | _ => True
                              end) re_frame).
  { simpl.
    repeat match goal with
           | |- _ /\ _ => split
           | |- True => exact I
           end.
    intros s Hs. exact Hs. }
  pose proof (JS_facts.match_sound _ _ Hok _ _ H 1%nat ltac:(lia)) as [_ H1].
  destruct H1 as (x & E & Q); [simpl; tauto |].
  unfold JS.at_. rewrite E. simpl. now apply parseInt_digits_nonneg.
Qed.

Lemma numeric_Some x : nonneg x = true -> numeric (Some x).
Proof. intros H y E. inversion E; subst. now apply nonneg_not_nan. Qed.

Lemma discover_numeric data p :
  guarded_numeric p -> guarded_numeric (discover data p).
Proof.
  unfold guarded_numeric. intros (H1 & H2 & H3). unfold discover.
  destruct (duration p) eqn:Hd; [rewrite Hd; now repeat split |].
  destruct (JS.match_ data re_duration) as [m |] eqn:Hm;
    [| rewrite Hd; now repeat split].
  cbv zeta. destruct (negb _ && negb _ && negb _);
    [| rewrite Hd; now repeat split].
  split; [| split; assumption]. simpl.
  apply numeric_Some, (hms_nonneg (lit "Duration: ") data m Hm).
Qed.

Lemma track_numeric data p :
  guarded_numeric p -> guarded_numeric (track data p).
Proof.
  unfold guarded_numeric. intros (H1 & H2 & H3).
  destruct (track_fields data p) as (F1 & _ & _ & _ & _ & _ & F7).
  split; [| split].
  - assert (E : duration (track data p) = duration p).
    { unfold track, track_speed, track_bitrate, track_time, track_size,
        track_q, track_fps, track_frame.
      repeat (match goal with
              | |- context [JS.match_ ?d ?r] => destruct (JS.match_ d r)
              | |- context [if ?b then _ else _] => destruct b
              end; simpl); reflexivity. }
    now rewrite E.
  - destruct (JS.match_ data re_time) as [m |] eqn:Hm.
    + assert (E : timeInSeconds (track data p) = timeInSeconds p
                  \/ timeInSeconds (track data p)
                     = Some (hms_seconds (JS.parseInt (JS.at_ m 1))
                               (JS.parseInt (JS.at_ m 2))
                               (JS.parseFloat (JS.at_ m 3)))).
      { unfold track, track_speed, track_bitrate, track_time, track_size,
          track_q, track_fps, track_frame. rewrite Hm. cbv zeta.
        repeat (match goal with
                | |- context [JS.match_ ?d ?r] => destruct (JS.match_ d r)
                | |- context [if ?b then _ else _] => destruct b
                end; simpl); auto. }
      destruct E as [E | E]; rewrite E; [assumption |].
      apply numeric_Some, (hms_nonneg (lit "time=") data m Hm).
    + destruct (F7 eq_refl) as [E _]. now rewrite E.
  - rewrite F1. unfold latest.
    destruct (JS.match_ data re_frame) as [m |] eqn:Hm; [| assumption].
    apply numeric_Some, (frame_nonneg data m Hm).
Qed.

Lemma parse_numeric data p :
  guarded_numeric p -> guarded_numeric (parse data p).
Proof.
  intros H. apply (discover_numeric data) in H. unfold parse. cbv zeta.
  destruct (duration (discover data p)); [| exact H].
  now apply track_numeric.
Qed.

(** A property of the empty progress object that every chunk preserves
    holds of every object in the store. *)
Lemma store_all (P : FFMPEGProgress -> Prop) :
  P EmptyProgress -> (forall d p, P p -> P (parse d p)) ->
  forall w, reachable w -> forall r p, store w !! r = Some p -> P p.
Proof.
  intros H0 Hparse w Hr. induction Hr as [a e | w a Hr IH].
  - intros r p H. simpl in H. apply lookup_singleton_Some in H as [_ <-].
    exact H0.
  - pose proof (reachable_wf w Hr) as Hw.
    assert (Hd : P (deref w)).
    { destruct Hw as [q Hq]. rewrite (deref_lookup w q Hq). eauto. }
    rewrite exec_step_next by assumption.
    destruct a as [sp | sg acc | | [k d | k d | k code | k m]]; simpl;
      try exact IH.
    + destruct (child (this w)); [exact IH |].
      assert (H1 : forall r p, store (restarted w) !! r = Some p -> P p).
      { intros r p H. unfold restarted in H; simpl in H.
        apply lookup_insert_Some in H as [[_ <-] | [_ H]]; eauto. }
      destruct sp; exact H1.
    + destruct (child (this w)); [| exact IH].
      destruct (_killed (this w)); [exact IH |]. destruct acc; exact IH.
    + intros r p H. unfold copied in H; simpl in H.
      apply lookup_insert_Some in H as [[_ <-] | [_ H]]; eauto.
    + destruct (bool_decide _); [| exact IH]. cbv zeta.
      assert (H1 : forall r p,
                <[_progress (this w) := parse d (deref w)]> (store w) !! r
                = Some p -> P p).
      { intros r p H.
        apply lookup_insert_Some in H as [[_ <-] | [_ H]]; eauto. }
      destruct (duration (parse d (deref w))); [| exact H1].
      intros r p H. unfold copied, put in H; simpl in H.
      apply lookup_insert_Some in H as [[_ <-] | [_ H]]; eauto.
    + destruct (default false _); exact IH.
    + destruct (default false _); exact IH.
Qed.

(** X4: in every world an instance can be in, the duration, the elapsed
    seconds and the frame count of every progress object (the current one
    and every copy handed out) are unknown or a number other than [NaN]:
    what their patterns capture always parses. *)
Theorem X4_guarded_fields_never_nan (w : World) (r : ref)
    (p : FFMPEGProgress) :
  reachable w -> store w !! r = Some p ->
  (forall x, duration p = Some x -> JS.isNaN x = false)
  /\ (forall x, timeInSeconds p = Some x -> JS.isNaN x = false)
  /\ (forall x, frame p = Some x -> JS.isNaN x = false).
Proof.
  intros Hr Hp.
  apply (store_all guarded_numeric) with (w := w) (r := r); try assumption.
  - repeat split; intros x H; discriminate.
  - intros d q. apply parse_numeric.
Qed.

Lemma X4_guarded_fields_never_nan_witness :
  (forall x, duration (deref finished) = Some x -> JS.isNaN x = false)
  /\ (forall x, timeInSeconds (deref finished) = Some x -> JS.isNaN x = false)
  /\ (forall x, frame (deref finished) = Some x -> JS.isNaN x = false).
Proof.
  apply (X4_guarded_fields_never_nan finished (_progress (this finished))
           (deref finished) reachable_finished).
  vm_compute. reflexivity.
Defined.

(** ** Where signals go *)

Lemma emitted_kill a w c signal :
  In (Kill c signal) (emitted a w) ->
  (exists accepted, a = Call_stop signal accepted)
  /\ child (this w) = Some c /\ _killed (this w) = false.
Proof.
  destruct a as [sp | sg acc | | [k d | k d | k code | k m]]; simpl.
  - destruct (child (this w)); simpl; [tauto |]. intros [H | []]. discriminate.
  - destruct (child (this w)) as [ch |]; simpl; [| tauto].
    destruct (_killed (this w)); simpl; [tauto |].
    intros [H | []]. inversion H; subst. eauto.
  - tauto.
  - destruct (bool_decide _); simpl; [| tauto]. intros [H | []]. discriminate.
  - destruct (bool_decide _); simpl; [| tauto]. cbv zeta.
    destruct (duration _); simpl; intros H;
      repeat (destruct H as [H | H]; [discriminate |]); destruct H.
  - destruct (default false _); simpl; [| tauto]. intros [H | []]. discriminate.
  - destruct (default false _); simpl; [| tauto]. intros [H | []]. discriminate.
Qed.

(** X12: the instance calls [kill] only inside [stop], with the signal
    [stop] was given, while the killed flag is unset, and on the child its
    handle refers to, which is the child spawned last: no signal ever goes
    to the process of an earlier run. *)
Theorem X12_kill_goes_to_current_child (w : World) (a : action) (c : nat)
    (signal : option str) :
  reachable w -> In (Kill c signal) (effects (step a) w) ->
  (exists accepted, a = Call_stop signal accepted)
  /\ child (this w) = Some c /\ _killed (this w) = false
  /\ S c = length (children w).
Proof.
  intros Hr H. rewrite effects_step in H by now apply reachable_wf.
  destruct (emitted_kill a w c signal H) as (H1 & H2 & H3).
  destruct (reachable_handle_inv w Hr c H2) as [H4 _]. auto.
Qed.

Lemma X12_kill_goes_to_current_child_witness :
  (exists accepted,
     Call_stop (Some (lit "SIGINT")) true
     = Call_stop (Some (lit "SIGINT")) accepted)
  /\ child (this running) = Some 0%nat /\ _killed (this running) = false
  /\ S 0 = length (children running).
Proof.
  apply (X12_kill_goes_to_current_child running
           (Call_stop (Some (lit "SIGINT")) true) 0 (Some (lit "SIGINT"))
           reachable_running).
  vm_compute. left. reflexivity.
Defined.
